(** * name-aggregation: a shallow embedding of [src/aggregate.py]

    The development follows the pipeline of the program:
    - [kansuji2arabic] with its nested [_transvalue] (kanji numerals),
    - the per-morpheme branch of [get_repname_set],
    - [expand_ambiguity] (cross product of candidates),
    - [aggregate] (first-match clustering and the id map).

    A Python [str] is a sequence of Unicode code points, so strings are
    lists of code points ([N]); sets and dicts are stdpp's [gset] and
    [gmap]; Python's unbounded non-negative integers are [N]. *)

From Stdlib Require Import Ascii String DecimalPos.
From stdpp Require Import base numbers option list sets gmap sorting.

Local Open Scope N_scope.
Set Warnings "-clear-no-such-hyp".

(** ** Strings as code points *)

Abbreviation char := N (only parsing).
Abbreviation str := (list N) (only parsing).

(** Literals are written as UTF-8 text and decoded to code points. *)

Definition utf8_cont (acc b : N) : N := N.lor (N.shiftl acc 6) (N.land b 0x3F).

Fixpoint utf8_decode (bs : list N) : str :=
  match bs with
  | [] => []
  | b0 :: bs1 =>
    if b0 <? 0x80 then b0 :: utf8_decode bs1
    else
      match bs1 with
      | [] => [0xFFFD]
      | b1 :: bs2 =>
        if b0 <? 0xE0 then utf8_cont (N.land b0 0x1F) b1 :: utf8_decode bs2
        else
          match bs2 with
          | [] => [0xFFFD]
          | b2 :: bs3 =>
            if b0 <? 0xF0
            then utf8_cont (utf8_cont (N.land b0 0x0F) b1) b2 :: utf8_decode bs3
            else
              match bs3 with
              | [] => [0xFFFD]
              | b3 :: bs4 =>
                utf8_cont (utf8_cont (utf8_cont (N.land b0 0x07) b1) b2) b3
                  :: utf8_decode bs4
              end
          end
      end
  end.

Definition u (s : string) : str :=
  utf8_decode (map N_of_ascii (list_ascii_of_string s)).

(** The characters the program names. *)

Definition k_juu : char := 0x5341.      (* 十 *)
Definition k_juu_daiji : char := 0x62FE. (* 拾 *)
Definition k_hyaku : char := 0x767E.    (* 百 *)
Definition k_sen : char := 0x5343.      (* 千 *)
Definition k_man : char := 0x4E07.      (* 万 *)
Definition k_oku : char := 0x5104.      (* 億 *)
Definition k_chou : char := 0x5146.     (* 兆 *)

(** ** [expand_ambiguity] *)

(** [product_tuple t1 t2 = tuple([_t1 + _t2 for _t1 in t1 for _t2 in t2])] *)
Definition product_tuple (t1 t2 : list str) : list str :=
  _t1 ← t1; _t2 ← t2; [_t1 ++ _t2].

(** The loop [for _repname in repname: expanded = product_tuple(expanded, _repname)]
    started from [tuple([''])]. *)
Definition expand_ambiguity (repname : list (list str)) : list str :=
  foldl product_tuple [[]] repname.

(** ** Python built-ins used by the converter *)

(** [str.translate] with a table built by [str.maketrans(a, b)]: a character
    of [a] becomes the character of [b] at the same position, any other
    character is kept. *)
Definition translate (table : list (char * char)) (s : str) : str :=
  map (λ c, default c (snd <$> find (λ p, bool_decide (fst p = c)) table)) s.

(** [str(n)] for a non-negative integer: its decimal digits in ASCII. *)
Fixpoint uint_chars (d : Decimal.uint) : str :=
  match d with
  | Decimal.Nil => []
  | Decimal.D0 d => 0x30 :: uint_chars d
  | Decimal.D1 d => 0x31 :: uint_chars d
  | Decimal.D2 d => 0x32 :: uint_chars d
  | Decimal.D3 d => 0x33 :: uint_chars d
  | Decimal.D4 d => 0x34 :: uint_chars d
  | Decimal.D5 d => 0x35 :: uint_chars d
  | Decimal.D6 d => 0x36 :: uint_chars d
  | Decimal.D7 d => 0x37 :: uint_chars d
  | Decimal.D8 d => 0x38 :: uint_chars d
  | Decimal.D9 d => 0x39 :: uint_chars d
  end.

Definition py_str (n : N) : str := uint_chars (N.to_uint n).

(** [s.replace(old, new)]: every non-overlapping occurrence of [old], found
    left to right, becomes [new]. [skip] counts the characters of a match
    that are still to be passed over. *)
Fixpoint replace_from (old new : str) (skip : nat) (s : str) : str :=
  match s with
  | [] => []
  | c :: s' =>
    match skip with
    | S k => replace_from old new k s'
    | O =>
      if bool_decide (old `prefix_of` s)
      then new ++ replace_from old new (pred (length old)) s'
      else c :: replace_from old new 0 s'
    end
  end.

(** With an empty [old] Python puts [new] before every character and at
    the end. *)
Definition replace (old new s : str) : str :=
  match old with
  | [] => new ++ (c ← s; c :: new)
  | _ => replace_from old new 0 s
  end.

(** [sorted(l, key=lambda s: len(s), reverse=True)]: a stable sort, longest
    first; elements of equal length keep the order they had in [l]. *)
Fixpoint insert_by_len (x : str) (l : list str) : list str :=
  match l with
  | [] => [x]
  | y :: l' =>
    if bool_decide (length y ≤ length x)%nat then x :: l
    else y :: insert_by_len x l'
  end.

Definition sorted_by_len_desc (l : list str) : list str :=
  foldr insert_by_len [] l.

(** ** Regular expressions

    All three patterns have the shape [[A]|[B]+]: one character of the
    class [A], or a longest run of characters of the class [B].
    [findall] scans left to right; [cur] is the run of [B] being matched,
    and a character that starts no match is skipped. *)

Definition emit (cur : str) : list str :=
  match cur with [] => [] | _ => [cur] end.

Fixpoint findall (A B : char → bool) (cur : str) (s : str) : list str :=
  match s with
  | [] => emit cur
  | c :: s' =>
    match cur with
    | _ :: _ =>
      if B c then findall A B (cur ++ [c]) s'
      else emit cur ++
           (if A c then [c] :: findall A B [] s' else findall A B [] s')
    | [] =>
      if A c then [c] :: findall A B [] s'
      else if B c then findall A B [c] s'
      else findall A B [] s'
    end
  end.

Definition is_kunit (c : char) : bool :=
  bool_decide (c ∈ [k_juu; k_juu_daiji; k_hyaku; k_sen]).

Definition is_manshin (c : char) : bool :=
  bool_decide (c ∈ [k_man; k_oku; k_chou]).

(** [tt_ksuji = str.maketrans('一二三四五六七八九〇壱弐参', '1234567890123')] *)
Definition tt_ksuji : list (char * char) :=
  [ (0x4E00, 0x31); (0x4E8C, 0x32); (0x4E09, 0x33); (0x56DB, 0x34);
    (0x4E94, 0x35); (0x516D, 0x36); (0x4E03, 0x37); (0x516B, 0x38);
    (0x4E5D, 0x39); (0x3007, 0x30); (0x58F1, 0x31); (0x5F10, 0x32);
    (0x53C2, 0x33) ].

(** [TRANSUNIT] and [TRANSMANS]: dicts keyed by one-character strings. *)
Definition TRANSUNIT (piece : str) : option N :=
  match piece with
  | [c] =>
    if bool_decide (c = k_juu) then Some 10
    else if bool_decide (c = k_juu_daiji) then Some 10
    else if bool_decide (c = k_hyaku) then Some 100
    else if bool_decide (c = k_sen) then Some 1000
    else None
  | _ => None
  end.

Definition TRANSMANS (piece : str) : option N :=
  match piece with
  | [c] =>
    if bool_decide (c = k_man) then Some 10000
    else if bool_decide (c = k_oku) then Some 100000000
    else if bool_decide (c = k_chou) then Some 1000000000000
    else None
  | _ => None
  end.

(** A monadic left fold, for loops whose body may fail. *)
Fixpoint foldlM {A B} (f : A → B → option A) (a : A) (l : list B) : option A :=
  match l with
  | [] => Some a
  | b :: l' => a' ← f a b; foldlM f a' l'
  end.

(** ** [kansuji2arabic]

    Two collaborators are not part of the repository and stay abstract:
    - [decimal c] is the Unicode database's decimal-digit value of [c]
      ([Some d] exactly for the characters of category Nd). Python's
      [\d], [str.isdecimal] and [int] all read it.
    - [h2z] is [zenhan.h2z], the half-width to full-width conversion. *)

Section Converter.

Variable decimal : char → option N.
Variable h2z : str → str.

Definition is_decimal_char (c : char) : bool := bool_decide (is_Some (decimal c)).

(** [s.isdecimal()]: non-empty and every character is a decimal digit. *)
Definition isdecimal (s : str) : bool :=
  negb (bool_decide (s = [])) && forallb is_decimal_char s.

(** [int(s)] on a string for which [s.isdecimal()] holds. *)
Definition int_of (s : str) : N :=
  foldl (λ acc c, 10 * acc + default 0 (decimal c)) 0 s.

(** [re_suji = re.compile(r'[十拾百千万億兆\d]+')] *)
Definition is_suji (c : char) : bool :=
  is_kunit c || is_manshin c || is_decimal_char c.
Definition re_suji (s : str) : list str := findall (λ _, false) is_suji [] s.

(** [re_kunit = re.compile(r'[十拾百千]|\d+')] *)
Definition re_kunit (s : str) : list str := findall is_kunit is_decimal_char [] s.

(** [re_manshin = re.compile(r'[万億兆]|[^万億兆]+')] *)
Definition re_manshin (s : str) : list str :=
  findall is_manshin (λ c, negb (is_manshin c)) [] s.

(** The body of the loop of [_transvalue]; the state is [(unit, result)] and
    [nested] is the recursive call [_transvalue(piece)]. *)
Definition transvalue_step (transdic : str → option N) (nested : str → option N)
    (st : N * N) (piece : str) : option (N * N) :=
  let '(unit, result) := st in
  match transdic piece with
  | Some v => Some (v, if 1 <? unit then result + unit else result)
  | None =>
    val ← (if isdecimal piece then Some (int_of piece) else nested piece);
    Some (1, result + val * unit)
  end.

(** [_transvalue(sj, re_obj=re_kunit, transdic=TRANSUNIT)]. The recursion is
    on pieces of the string, so it is bounded by [fuel]; [None] means the
    fuel ran out. *)
Fixpoint _transvalue (fuel : nat) (re_obj : str → list str)
    (transdic : str → option N) (sj : str) : option N :=
  match fuel with
  | O => None
  | S fuel' =>
    '(unit, result) ←
      foldlM (transvalue_step transdic (_transvalue fuel' re_kunit TRANSUNIT))
             (1, 0) (reverse (re_obj sj));
    Some (if 1 <? unit then result + unit else result)
  end.

(** The body of the loop over the runs. *)
Definition replace_suji (fuel : nat) (transuji : str) (suji : str) : option str :=
  if isdecimal suji then Some transuji
  else
    arabic ← _transvalue fuel re_manshin TRANSMANS suji;
    Some (replace suji (py_str arabic) transuji).

(** [set_iter l] is the order in which Python iterates over [set(l)]; the
    language leaves it open. *)
Definition kansuji2arabic (fuel : nat) (set_iter : list str → list str)
    (kstring : str) : option str :=
  let transuji := translate tt_ksuji kstring in
  transuji' ←
    foldlM (replace_suji fuel) transuji
           (sorted_by_len_desc (set_iter (re_suji transuji)));
  Some (h2z transuji').

End Converter.

(** ** [get_repname_set] *)

(** A morpheme as the program reads it from the analyser: [mrph.bunrui],
    [mrph.midasi] and the value of [mrph.repnames()]. *)
Record mrph := Mrph { bunrui : str; midasi : str; repnames : str }.

Definition SUUSHI : str := [0x6570; 0x8A5E]. (* 数詞 *)

(** [s.split(sep)] for a one-character separator. *)
Fixpoint split_on (sep : char) (cur : str) (s : str) : list str :=
  match s with
  | [] => [cur]
  | c :: s' =>
    if bool_decide (c = sep) then cur :: split_on sep [] s'
    else split_on sep (cur ++ [c]) s'
  end.

Section Repnames.

Variable decimal : char → option N.
Variable h2z : str → str.
Variable set_iter : list str → list str.
(** [juman.analysis(word).mrph_list()] *)
Variable analysis : str → list mrph.

(** The three branches of the loop over the morphemes; [tuple(s)] of a
    string is the tuple of its one-character strings. *)
Definition mrph_candidates (fuel : nat) (m : mrph) : option (list str) :=
  if bool_decide (bunrui m = SUUSHI) then
    s ← kansuji2arabic decimal h2z fuel set_iter (midasi m);
    Some (map (λ c : char, [c]) s)
  else if bool_decide (repnames m ≠ []) then
    Some (split_on 0x3F [] (repnames m))
  else Some [midasi m].

Definition get_repname_set (fuel : nat) (words : list str) : option (list (list str)) :=
  mapM (λ word, expand_ambiguity <$> mapM (mrph_candidates fuel) (analysis word))
       words.

End Repnames.

(** ** [aggregate] *)

(** The exceptions the function can raise. *)
Inductive pyerr := IndexError | KeyError.

Inductive result (A : Type) :=
| Ok (a : A)
| Raise (e : pyerr).
Arguments Ok {A} a.
Arguments Raise {A} e.

Fixpoint result_mapM {A B} (f : A → result B) (l : list A) : result (list B) :=
  match l with
  | [] => Ok []
  | a :: l' =>
    match f a with
    | Raise e => Raise e
    | Ok b =>
      match result_mapM f l' with
      | Raise e => Raise e
      | Ok bs => Ok (b :: bs)
      end
    end
  end.

(** The test [len(repname_set & repname_set_to_merge) > 0]. *)
Definition overlaps (X C : gset str) : Prop := (0 < size (X ∩ C))%nat.

#[global] Instance overlaps_dec (X C : gset str) : Decision (overlaps X C) :=
  decide (0 < size (X ∩ C))%nat.

(** One pass of the inner [for ... else] for the word's set [X]: the first
    cluster that overlaps [X] is replaced, at its index, by the union;
    without one, [X] is appended. *)
Definition merge_word (clusters : list (gset str)) (X : gset str) : list (gset str) :=
  match list_find (overlaps X) clusters with
  | Some (i, C) => <[i := X ∪ C]> clusters
  | None => clusters ++ [X]
  end.

(** [repname_sets_to_merge] after the loop over [repname_sets[1:]]. *)
Definition merge_all (first : list str) (rest : list (list str)) : list (gset str) :=
  foldl merge_word [list_to_set first] (list_to_set <$> rest).

(** The two nested loops that fill [repname2id]. *)
Definition assign_ids (clusters : list (gset str)) : gmap str nat :=
  foldl (λ m '(i, C), set_fold (λ repname m, <[repname := i]> m) m C)
        ∅ (imap pair clusters).

Definition word_id (repname2id : gmap str nat) (p : str * list str)
    : result (str * nat) :=
  match p.2 with
  | [] => Raise IndexError
  | repname :: _ =>
    match repname2id !! repname with
    | Some i => Ok (p.1, i)
    | None => Raise KeyError
    end
  end.

Definition aggregate (words : list str) (repname_sets : list (list str))
    : result (list (str * nat)) :=
  match repname_sets with
  | [] => Raise IndexError
  | first :: rest =>
    let repname2id := assign_ids (merge_all first rest) in
    result_mapM (word_id repname2id) (zip words repname_sets)
  end.

(** ** Notions used to state the properties *)

(** A host string cut into the runs a [[class]+] pattern matches and the
    characters between them. *)
Inductive item :=
| Gap (c : char)
| Run (r : str).

Definition flat (it : item) : str :=
  match it with Gap c => [c] | Run r => r end.

Definition render (its : list item) : str := its ≫= flat.

Definition emit_run (cur : str) : list item :=
  match cur with [] => [] | _ => [Run cur] end.

(** The scan of [findall (λ _, false) P], keeping what it skips. *)
Fixpoint segment (P : char → bool) (cur : str) (s : str) : list item :=
  match s with
  | [] => emit_run cur
  | c :: s' =>
    if P c then segment P (cur ++ [c]) s'
    else emit_run cur ++ Gap c :: segment P [] s'
  end.

Definition runs_of (its : list item) : list str :=
  its ≫= λ it, match it with Gap _ => [] | Run r => [r] end.

(** Runs are non-empty, made of class characters, and separated by at
    least one character outside the class. *)
Inductive wf_items (P : char → bool) : list item → Prop :=
| wf_nil : wf_items P []
| wf_gap c its : P c = false → wf_items P its → wf_items P (Gap c :: its)
| wf_run_end r : r ≠ [] → forallb P r = true → wf_items P [Run r]
| wf_run_gap r c its :
    r ≠ [] → forallb P r = true → wf_items P (Gap c :: its) →
    wf_items P (Run r :: Gap c :: its).

(** [a] occurs in [b] as a contiguous substring. *)
Definition occurs (a b : str) : Prop := ∃ p q, b = p ++ a ++ q.

(** Replacing the runs equal to [old]. *)
Definition subst_run (old new : str) (it : item) : item :=
  match it with
  | Gap c => Gap c
  | Run r => if bool_decide (r = old) then Run new else Run r
  end.

(** The iteration orders Python may choose for [set(l)]: each distinct
    element of [l] once. *)
Definition set_iter_ok (set_iter : list str → list str) : Prop :=
  ∀ l, set_iter l ≡ₚ remove_dups l.

(** ASCII digits are decimal digits of the Unicode table, with their value. *)
Definition ascii_digit (c : char) : Prop := 0x30 ≤ c ≤ 0x39.

#[global] Instance ascii_digit_dec (c : char) : Decision (ascii_digit c) :=
  decide (0x30 ≤ c ≤ 0x39).

Definition decimal_ascii (decimal : char → option N) : Prop :=
  ∀ c, ascii_digit c → decimal c = Some (c - 0x30).

(** The unit characters are not decimal digits (they are ideographs). *)
Definition decimal_kanji (decimal : char → option N) : Prop :=
  ∀ c, is_kunit c || is_manshin c = true → decimal c = None.

(** [zenhan.h2z] turns a half-width digit into the full-width digit. *)
Definition h2z_widens_digits (h2z : str → str) : Prop :=
  ∀ s, Forall ascii_digit s → h2z s = map (λ c, c + 0xFEE0) s.

(** Final clusters that share no element. *)
Definition pairwise_disjoint (clusters : list (gset str)) : Prop :=
  ∀ i j Ci Cj, i ≠ j → clusters !! i = Some Ci → clusters !! j = Some Cj → Ci ## Cj.

(** Every set of [sets], when its turn comes, overlaps at most one of the
    clusters that exist at that moment. *)
Fixpoint single_overlap (clusters : list (gset str)) (sets : list (gset str)) : Prop :=
  match sets with
  | [] => True
  | X :: sets' =>
    (length (filter (overlaps X) clusters) ≤ 1)%nat
    ∧ single_overlap (merge_word clusters X) sets'
  end.

(** The value a run is replaced by: [str(_transvalue(suji, re_manshin, TRANSMANS))]. *)
Definition run_value (decimal : char → option N) (r : str) : str :=
  py_str (default 0 (_transvalue decimal 2 re_manshin TRANSMANS r)).

(** The host string after the runs listed in [processed] have had their turn. *)
Definition convert_run (decimal : char → option N) (processed : list str)
    (it : item) : item :=
  match it with
  | Gap c => Gap c
  | Run r =>
    if bool_decide (r ∈ processed) && negb (isdecimal decimal r)
    then Run (run_value decimal r) else Run r
  end.

(** Every run that is not a plain decimal number replaced, in place, by its value. *)
Definition convert_all (decimal : char → option N) (it : item) : item :=
  match it with
  | Gap c => Gap c
  | Run r => if isdecimal decimal r then Run r else Run (run_value decimal r)
  end.

Definition longer_first (a b : str) : Prop := (length b ≤ length a)%nat.

(** The table with what is known about it written out: it agrees with
    [decimal] whenever ASCII digits and unit characters are classified as
    in Unicode, and it evaluates on them. *)
Definition decimal_known (decimal : char → option N) (c : char) : option N :=
  if bool_decide (ascii_digit c) then Some (c - 0x30)
  else if is_kunit c || is_manshin c then None
  else decimal c.

(** ** Instances of the collaborators *)

(** A table with the two blocks of decimal digits that occur in the
    program's input, the ASCII and the full-width digits. *)
Definition decimal_ja (c : char) : option N :=
  if bool_decide (0x30 ≤ c ≤ 0x39) then Some (c - 0x30)
  else if bool_decide (0xFF10 ≤ c ≤ 0xFF19) then Some (c - 0xFF10)
  else None.

(** Modelled from the spec: [zenhan.h2z] is not under src/. The spec
    (section 6) describes it as the half-width to full-width mapping; on
    a half-width digit that is the full-width digit, [0xFEE0] code points
    higher. This instance converts the digits and nothing else, so it
    agrees with that mapping on every string of digits. *)
Definition h2z_digit (s : str) : str :=
  map (λ c, if bool_decide (ascii_digit c) then c + 0xFEE0 else c) s.

Ltac ascii_digits := apply (bool_decide_unpack _); by vm_compute.

(** ** The files and [main] *)


(** Iterating over an open text file yields its lines, each with its
    ['\n'], the last one without when the file does not end in one. The
    file is given as the text Python reads from it (decoded, line endings
    translated to ['\n']). *)
Fixpoint file_lines (cur : str) (content : str) : list str :=
  match content with
  | [] => emit cur
  | c :: rest =>
    if bool_decide (c = 0x0A) then (cur ++ [c]) :: file_lines [] rest
    else file_lines (cur ++ [c]) rest
  end.

(** [count_line]: [len([_ for _ in f])] *)
Definition count_line (content : str) : nat := length (file_lines [] content).

(** [s.strip()]: whitespace removed at both ends. [isspace] is Python's
    classification of whitespace characters. *)
Fixpoint lstrip (isspace : char → bool) (s : str) : str :=
  match s with
  | [] => []
  | c :: s' => if isspace c then lstrip isspace s' else s
  end.

Definition strip (isspace : char → bool) (s : str) : str :=
  reverse (lstrip isspace (reverse (lstrip isspace s))).

(** [load_file]: [[word.strip() for word in f]]; the progress bar passes the
    lines through. *)
Definition load_file (isspace : char → bool) (content : str) : list str :=
  map (strip isspace) (file_lines [] content).

(** [save]: the text written, ['{}\t{}\n'.format(word, id)] for each pair. *)
Definition format_line (p : str * nat) : str :=
  p.1 ++ [0x09] ++ py_str (N.of_nat p.2) ++ [0x0A].

Definition save (out : list (str * nat)) : str := out ≫= format_line.


(** ** Further notions used to state the properties *)

(** [sep.join(pieces)] *)
Fixpoint join (sep : char) (pieces : list str) : str :=
  match pieces with
  | [] => []
  | p :: ps => match ps with [] => p | _ => p ++ sep :: join sep ps end
  end.

(** The usual spelling of a number in kanji numerals: digits 一 to 九, the
    units 千, 百, 十 inside a group of four digits (without 一 before
    them), and the groups followed by 兆, 億, 万. *)
Definition kanji_digits : list char :=
  [0x4E00; 0x4E8C; 0x4E09; 0x56DB; 0x4E94; 0x516D; 0x4E03; 0x516B; 0x4E5D].

Definition kanji_digit (d : N) : str :=
  match kanji_digits !! (N.to_nat d - 1)%nat with
  | Some c => [c]
  | None => []
  end.

Definition kanji_place (d : N) (unit : char) : str :=
  if d =? 0 then [] else if d =? 1 then [unit] else kanji_digit d ++ [unit].

Definition kanji_group (g : N) : str :=
  kanji_place (g / 1000) k_sen ++ kanji_place (g / 100 mod 10) k_hyaku
  ++ kanji_place (g / 10 mod 10) k_juu
  ++ (if g mod 10 =? 0 then [] else kanji_digit (g mod 10)).

Definition kanji_part (g : N) (unit : char) : str :=
  if g =? 0 then [] else kanji_group g ++ [unit].

Definition kanji_of (n : N) : str :=
  kanji_part (n / 10 ^ 12) k_chou ++ kanji_part (n / 10 ^ 8 mod 10 ^ 4) k_oku
  ++ kanji_part (n / 10 ^ 4 mod 10 ^ 4) k_man ++ kanji_group (n mod 10 ^ 4).

(** The characters [kansuji2arabic] is there to remove: the keys of
    [tt_ksuji] and the unit characters. *)
Definition is_kansuji (c : char) : bool :=
  bool_decide (c ∈ tt_ksuji.*1) || is_kunit c || is_manshin c.

(** The value of one piece of the outer scan: [int(piece)] or the nested
    [_transvalue(piece)]. *)
Definition piece_value (decimal : char → option N) (fuel : nat) (piece : str)
    : option N :=
  if isdecimal decimal piece then Some (int_of decimal piece)
  else _transvalue decimal fuel (re_kunit decimal) TRANSUNIT piece.

(** What the evaluation of a spelled number needs to know about one group
    of four digits, as a test that can be run on every group. *)
Definition group_check (decimal : char → option N) (g : N) : bool :=
  let p := translate tt_ksuji (kanji_group g) in
  negb (bool_decide (p = []))
  && forallb (λ c, negb (is_manshin c) && is_suji decimal c) p
  && bool_decide (piece_value decimal 1 p = Some g)
  && (bool_decide (g < 10) || negb (isdecimal decimal p))
  && (negb (bool_decide (g < 10)) || bool_decide (p = py_str g)).

(** A line as the iteration over a file yields it: without ['\n'] except
    at its end, and not empty. *)
Definition is_line (l : str) : Prop :=
  ∃ body, (0x0A ∉ body) ∧ (l = body ++ [0x0A] ∨ (l = body ∧ body ≠ [])).

(** ** Further instances of the collaborators *)

(** The ASCII whitespace characters. *)
Definition isspace_ascii (c : char) : bool :=
  bool_decide (c ∈ [0x09; 0x0A; 0x0B; 0x0C; 0x0D; 0x20]).


(** A small input file: three lines, the first and the last the same word
    up to the blanks around it. *)
Definition sample_file : str :=
  u "犬 " ++ 0x0A :: u "猫" ++ 0x0A :: u " 犬" ++ [0x0A].

(** * Properties *)

(** ** The constants and the scanners on small inputs *)

Example unit_characters :
  u "十拾百千万億兆" = [k_juu; k_juu_daiji; k_hyaku; k_sen; k_man; k_oku; k_chou].
Proof. reflexivity. Qed.

Example tt_ksuji_table :
  tt_ksuji = zip (u "一二三四五六七八九〇壱弐参") (u "1234567890123").
Proof. reflexivity. Qed.

Example suushi_literal : SUUSHI = u "数詞".
Proof. reflexivity. Qed.

Example translate_digits : translate tt_ksuji (u "二千十九") = u "2千十9".
Proof. reflexivity. Qed.

Example re_suji_runs :
  re_suji decimal_ja (u "abc2十3と十と２３") = [u "2十3"; u "十"; u "２３"].
Proof. reflexivity. Qed.

Example re_kunit_pieces_2019 :
  re_kunit decimal_ja (u "2千十9") = [u "2"; u "千"; u "十"; u "9"].
Proof. reflexivity. Qed.

Example re_manshin_pieces :
  re_manshin (u "2十3億5千万２３") = [u "2十3"; u "億"; u "5千"; u "万"; u "２３"].
Proof. reflexivity. Qed.

Example transvalue_large :
  _transvalue decimal_ja 2 re_manshin TRANSMANS (u "2十3億5千万２３")
  = Some 2350000023.
Proof. reflexivity. Qed.

(** The outer call needs the nested one: one unit of fuel is not enough
    for a run with a small unit. *)
Example transvalue_fuel_1 :
  _transvalue decimal_ja 1 re_manshin TRANSMANS (u "2十3") = None
  ∧ _transvalue decimal_ja 2 re_manshin TRANSMANS (u "2十3") = Some 23.
Proof. split; reflexivity. Qed.

Example replace_all_occurrences :
  replace (u "aa") (u "b") (u "aaaxaaaa") = u "baxbb"
  ∧ replace [] (u "-") (u "abc") = u "-a-b-c-".
Proof. split; reflexivity. Qed.

Example sorted_longest_first_stable :
  sorted_by_len_desc [u "ab"; u "c"; u "de"; u "fgh"; u "i"]
  = [u "fgh"; u "ab"; u "de"; u "c"; u "i"].
Proof. reflexivity. Qed.

Example split_repnames :
  split_on 0x3F [] (u "a/b?c/d") = [u "a/b"; u "c/d"].
Proof. reflexivity. Qed.

Example kansuji2arabic_in_text :
  kansuji2arabic decimal_ja h2z_digit 2 remove_dups (u "第二十三回と十")
  = Some (u "第２３回と１０").
Proof. reflexivity. Qed.

(** ** [expand_ambiguity] *)

Lemma product_tuple_cons (x : str) (t1 t2 : list str) :
  product_tuple (x :: t1) t2 = map (λ c, x ++ c) t2 ++ product_tuple t1 t2.
Proof.
  unfold product_tuple. cbn. by f_equal.
Qed.

Lemma product_tuple_nil (t2 : list str) : product_tuple [] t2 = [].
Proof. done. Qed.

Lemma product_tuple_length (t1 t2 : list str) :
  length (product_tuple t1 t2) = (length t1 * length t2)%nat.
Proof.
  induction t1 as [|x t1 IH]; [done|].
  rewrite product_tuple_cons, length_app, length_map, IH. cbn. lia.
Qed.

Lemma product_tuple_lookup (t1 t2 : list str) (i j : nat) (a c : str) :
  t1 !! i = Some a → t2 !! j = Some c →
  product_tuple t1 t2 !! (i * length t2 + j)%nat = Some (a ++ c).
Proof.
  revert i. induction t1 as [|x t1 IH]; intros i Ha Hc; [done|].
  rewrite product_tuple_cons. destruct i as [|i]; cbn in Ha.
  - simplify_eq. replace (0 * length t2 + j)%nat with j by lia.
    rewrite lookup_app_l by (rewrite length_map; by eapply lookup_lt_Some).
    by rewrite list_lookup_fmap, Hc.
  - rewrite lookup_app_r by (rewrite length_map; cbn; lia).
    rewrite length_map.
    replace (S i * length t2 + j - length t2)%nat with (i * length t2 + j)%nat by (cbn; lia).
    by apply IH.
Qed.

Lemma expand_ambiguity_snoc (repname : list (list str)) (t : list str) :
  expand_ambiguity (repname ++ [t]) = product_tuple (expand_ambiguity repname) t.
Proof. unfold expand_ambiguity. by rewrite foldl_snoc. Qed.

Lemma expand_ambiguity_length (repname : list (list str)) :
  length (expand_ambiguity repname) = foldr Nat.mul 1%nat (length <$> repname).
Proof.
  induction repname as [|t repname IH] using rev_ind; [done|].
  rewrite expand_ambiguity_snoc, product_tuple_length, IH.
  rewrite fmap_app, foldr_app. cbn.
  generalize (length t). generalize (length <$> repname).
  intros l. induction l as [|k l IHl]; intros n; cbn; [lia|].
  rewrite <- IHl. lia.
Qed.

Lemma product_tuple_head (t1 t2 : list str) (a c : str) :
  head t1 = Some a → head t2 = Some c →
  head (product_tuple t1 t2) = Some (a ++ c).
Proof.
  destruct t1 as [|x t1], t2 as [|y t2]; intros Ha Hc; try done.
  cbn in Ha, Hc. simplify_eq. by rewrite product_tuple_cons.
Qed.

Lemma expand_ambiguity_head (repname : list (list str)) :
  Forall (λ t, t ≠ []) repname →
  head (expand_ambiguity repname) = Some (concat (default [] ∘ head <$> repname)).
Proof.
  induction repname as [|t repname IH] using rev_ind; intros Hne; [done|].
  apply Forall_app in Hne as [Hne Ht%Forall_inv].
  rewrite expand_ambiguity_snoc, fmap_app, concat_app. cbn.
  destruct t as [|c t]; [by destruct Ht|]. cbn. rewrite app_nil_r.
  apply product_tuple_head; [by apply IH | done].
Qed.

Lemma expand_ambiguity_single (t : list str) : expand_ambiguity [t] = t.
Proof.
  unfold expand_ambiguity. cbn [foldl].
  rewrite product_tuple_cons, product_tuple_nil, app_nil_r.
  induction t as [|c t IH]; [done|]. cbn. by f_equal.
Qed.

(** C4. For per-morpheme candidate tuples that are all non-empty,
    [expand_ambiguity] returns as many strings as the product of the
    candidate counts; each further morpheme combines every accumulated
    string, in order, with every candidate of that morpheme, in order (the
    string at index [i * len(t) + j] is the [i]-th accumulated string
    followed by the [j]-th candidate); the first element is the
    concatenation of the first candidates; and [("a","b"), ("x",)] expands
    to [("ax","bx")]. *)
Theorem expand_ambiguity_cross_product (repname : list (list str)) :
  Forall (λ t, t ≠ []) repname →
  length (expand_ambiguity repname) = foldr Nat.mul 1%nat (length <$> repname)
  ∧ expand_ambiguity [] = [[]]
  ∧ (∀ t, expand_ambiguity (repname ++ [t])
          = (a ← expand_ambiguity repname; c ← t; [a ++ c]))
  ∧ (∀ t i j a c,
        expand_ambiguity repname !! i = Some a → t !! j = Some c →
        expand_ambiguity (repname ++ [t]) !! (i * length t + j)%nat = Some (a ++ c))
  ∧ head (expand_ambiguity repname) = Some (concat (default [] ∘ head <$> repname))
  ∧ expand_ambiguity [[u "a"; u "b"]; [u "x"]] = [u "ax"; u "bx"].
Proof.
  intros Hne. split_and!.
  - apply expand_ambiguity_length.
  - done.
  - intros t. apply expand_ambiguity_snoc.
  - intros t i j a c Ha Hc. rewrite expand_ambiguity_snoc.
    by apply product_tuple_lookup.
  - by apply expand_ambiguity_head.
  - by vm_compute.
Qed.

Lemma expand_ambiguity_cross_product_witness :
  length (expand_ambiguity [[u "a"; u "b"]; [u "x"]]) = 2%nat
  ∧ head (expand_ambiguity [[u "a"; u "b"]; [u "x"]]) = Some (u "ax").
Proof.
  assert (Hne : Forall (λ t : list str, t ≠ []) [[u "a"; u "b"]; [u "x"]])
    by (repeat constructor; discriminate).
  destruct (expand_ambiguity_cross_product _ Hne) as (Hlen & _ & _ & _ & Hhd & _).
  split; [exact Hlen | exact Hhd].
Defined.

(** C10. On an empty sequence of candidate tuples [expand_ambiguity]
    returns [('',)]: one candidate, the empty string, which is then the
    primary candidate of the word. *)
Theorem expand_ambiguity_no_morpheme :
  expand_ambiguity [] = [[]] ∧ head (expand_ambiguity []) = Some [].
Proof. split; reflexivity. Qed.

(** ** Clustering *)

Lemma overlaps_spec (X C : gset str) : overlaps X C ↔ ∃ x, x ∈ X ∧ x ∈ C.
Proof.
  unfold overlaps. split.
  - intros [x Hx]%size_pos_elem_of. exists x. set_solver.
  - intros (x & HS & HC).
    assert (size (X ∩ C) ≠ 0%nat); [|lia].
    apply size_non_empty_iff. set_solver.
Qed.

Lemma overlaps_inter (X C : gset str) : overlaps X C ↔ X ∩ C ≠ ∅.
Proof.
  rewrite overlaps_spec. split.
  - intros (x & HS & HC). set_solver.
  - intros [x Hx]%set_choose_L. exists x. set_solver.
Qed.

Lemma not_overlaps_disjoint (X C : gset str) : ¬ overlaps X C ↔ X ## C.
Proof.
  rewrite overlaps_spec, elem_of_disjoint. split.
  - intros Hno x HS HC. apply Hno. by exists x.
  - intros Hdis (x & HS & HC). by apply (Hdis x).
Qed.

Lemma merge_word_hit (pre post : list (gset str)) (C X : gset str) :
  Forall (λ C', X ## C') pre → X ∩ C ≠ ∅ →
  merge_word (pre ++ C :: post) X = pre ++ (X ∪ C) :: post.
Proof.
  intros Hpre HC%overlaps_inter. unfold merge_word.
  destruct (list_find _ _) as [[i C']|] eqn:E.
  - apply list_find_Some in E as (Hi & HP & Hmin).
    assert (i = length pre) as ->.
    { destruct (Nat.lt_trichotomy i (length pre)) as [Hlt|[->|Hgt]]; [|done|].
      - rewrite lookup_app_l in Hi by done.
        apply list_elem_of_lookup_2 in Hi.
        rewrite Forall_forall in Hpre. apply Hpre in Hi.
        by apply not_overlaps_disjoint in Hi.
      - destruct (Hmin (length pre) C); [|done..].
        by rewrite list_lookup_middle. }
    rewrite list_lookup_middle in Hi by done. simplify_eq.
    replace (length pre) with (length pre + 0)%nat by lia.
    by rewrite insert_app_r.
  - apply list_find_None in E. apply Forall_app in E as [_ E].
    by apply Forall_cons in E as [E _].
Qed.

Lemma merge_word_miss (clusters : list (gset str)) (X : gset str) :
  Forall (λ C, X ## C) clusters → merge_word clusters X = clusters ++ [X].
Proof.
  intros Hall. unfold merge_word.
  destruct (list_find _ _) as [[i C]|] eqn:E; [|done].
  apply list_find_Some in E as (Hi & HP & _).
  apply list_elem_of_lookup_2 in Hi. rewrite Forall_forall in Hall.
  apply Hall in Hi. by apply not_overlaps_disjoint in Hi.
Qed.

Lemma merge_all_snoc (first : list str) (rest : list (list str)) (t : list str) :
  merge_all first (rest ++ [t]) = merge_word (merge_all first rest) (list_to_set t).
Proof. unfold merge_all. rewrite fmap_app. apply foldl_snoc. Qed.

Lemma merge_word_union (clusters : list (gset str)) (X : gset str) :
  ⋃ (merge_word clusters X) = ⋃ clusters ∪ X.
Proof.
  unfold merge_word. destruct (list_find _ _) as [[i C]|] eqn:E.
  - apply list_find_Some in E as (Hi & _ & _).
    rewrite <- (take_drop_middle clusters i C Hi) at 2.
    rewrite insert_take_drop by (by eapply lookup_lt_Some).
    rewrite !union_list_app_L, !union_list_cons. set_solver.
  - rewrite union_list_app_L, union_list_singleton_L. done.
Qed.

Lemma merge_all_union (first : list str) (rest : list (list str)) :
  ⋃ (merge_all first rest) = ⋃ (list_to_set <$> first :: rest).
Proof.
  induction rest as [|t rest IH] using rev_ind.
  - done.
  - rewrite merge_all_snoc, merge_word_union, IH.
    rewrite !fmap_cons, fmap_app, !union_list_cons, union_list_app_L.
    cbn. set_solver.
Qed.

Lemma dom_set_fold_insert (i : nat) (m : gmap str nat) (C : gset str) :
  dom (set_fold (λ repname m, <[repname := i]> m) m C) = dom m ∪ C.
Proof.
  apply (set_fold_ind_L (λ r X, dom r = dom m ∪ X)).
  - set_solver.
  - intros x X r _ IH. rewrite dom_insert_L, IH. set_solver.
Qed.

Lemma dom_assign_fold (g : nat → gset str → nat * gset str)
    (m : gmap str nat) (clusters : list (gset str)) :
  (∀ i C, (g i C).2 = C) →
  dom (foldl (λ m '(i, C), set_fold (λ repname m, <[repname := i]> m) m C)
             m (imap g clusters))
  = dom m ∪ ⋃ clusters.
Proof.
  revert g m. induction clusters as [|C clusters IH]; intros g m Hg.
  - cbn. set_solver.
  - rewrite imap_cons. cbn [foldl]. rewrite IH by (intros; apply Hg).
    specialize (Hg 0%nat C). destruct (g 0%nat C) as [i C']. cbn in Hg. subst.
    rewrite dom_set_fold_insert, union_list_cons. set_solver.
Qed.

Lemma dom_assign_ids (clusters : list (gset str)) :
  dom (assign_ids clusters) = ⋃ clusters.
Proof.
  unfold assign_ids. rewrite dom_assign_fold by done. set_solver.
Qed.

Lemma primary_in_map (first : list str) (rest : list (list str))
    (t : list str) (repname : str) :
  t ∈ first :: rest → head t = Some repname →
  is_Some (assign_ids (merge_all first rest) !! repname).
Proof.
  intros Ht Hhd. apply elem_of_dom.
  rewrite dom_assign_ids, merge_all_union.
  apply elem_of_union_list. exists (list_to_set t). split.
  - apply list_elem_of_fmap. by exists t.
  - apply elem_of_list_to_set. destruct t; simplify_eq/=. left.
Qed.

Lemma result_mapM_Ok {A B} (f : A → result B) (l : list A) :
  Forall (λ a, ∃ b, f a = Ok b) l →
  ∃ out, result_mapM f l = Ok out ∧ length out = length l.
Proof.
  induction 1 as [|a l [b Hb] _ (out & IH & Hlen)]; cbn.
  - by exists [].
  - rewrite Hb, IH. exists (b :: out). cbn. by rewrite Hlen.
Qed.

(** C1. Each word of the fold is handled by one pass of [merge_word]. When
    the word's set [X] meets a cluster [C1] and also a later cluster [C2],
    and no cluster before [C1], the pass replaces [C1] by [X ∪ C1] at its
    place and leaves every other cluster, [C2] included, as it was: the two
    stay separate entries. When [X] meets no cluster it is appended. *)
Theorem merge_word_first_match_only
    (pre mid post : list (gset str)) (C1 C2 X : gset str) :
  Forall (λ C, X ## C) pre → X ∩ C1 ≠ ∅ → X ∩ C2 ≠ ∅ →
  merge_word (pre ++ C1 :: mid ++ C2 :: post) X
    = pre ++ (X ∪ C1) :: mid ++ C2 :: post
  ∧ (∀ clusters, Forall (λ C, X ## C) clusters →
       merge_word clusters X = clusters ++ [X])
  ∧ (∀ first rest t,
       merge_all first (rest ++ [t])
       = merge_word (merge_all first rest) (list_to_set t)).
Proof.
  intros Hpre H1 _. split_and!.
  - by apply merge_word_hit.
  - intros clusters. apply merge_word_miss.
  - apply merge_all_snoc.
Qed.

Lemma merge_word_first_match_only_witness :
  merge_word [ {[u "A"]}; {[u "B"]}; {[u "C"]} ] {[u "A"; u "B"]}
  = [ {[u "A"; u "B"]} ∪ {[u "A"]}; {[u "B"]}; {[u "C"]} ].
Proof.
  apply (merge_word_first_match_only
           [] [] [ {[u "C"]} ] {[u "A"]} {[u "B"]} {[u "A"; u "B"]}).
  - constructor.
  - apply (bool_decide_unpack _). vm_compute. exact I.
  - apply (bool_decide_unpack _). vm_compute. exact I.
Defined.

(** A fourth word that meets the first and the second cluster joins the
    first only; the map is filled cluster by cluster, so [B] keeps the id
    of the second. *)
Example aggregate_fourth_word :
  length (merge_all [u "A"] [[u "B"]; [u "C"]; [u "A"; u "B"]]) = 3%nat
  ∧ aggregate [u "w0"; u "w1"; u "w2"; u "w3"]
              [[u "A"]; [u "B"]; [u "C"]; [u "A"; u "B"]]
    = Ok [(u "w0", 0%nat); (u "w1", 1%nat); (u "w2", 2%nat); (u "w3", 0%nat)].
Proof. split; by vm_compute. Qed.

(** C2. Three words whose candidate tuples have the sets [{A, B}],
    [{B, C}] and [{D}] get the ids 0, 0 and 1, whatever the order of the
    candidates inside each tuple. *)
Theorem aggregate_three_words (w0 w1 w2 : str) (t0 t1 t2 : list str) :
  list_to_set t0 = ({[u "A"; u "B"]} : gset str) →
  list_to_set t1 = ({[u "B"; u "C"]} : gset str) →
  list_to_set t2 = ({[u "D"]} : gset str) →
  aggregate [w0; w1; w2] [t0; t1; t2] = Ok [(w0, 0%nat); (w1, 0%nat); (w2, 1%nat)].
Proof.
  intros H0 H1 H2. unfold aggregate, merge_all.
  cbn [fmap list_fmap foldl]. rewrite H0, H1, H2.
  set (m := assign_ids _).
  assert (HA : m !! u "A" = Some 0%nat) by (by vm_compute).
  assert (HB : m !! u "B" = Some 0%nat) by (by vm_compute).
  assert (HC : m !! u "C" = Some 0%nat) by (by vm_compute).
  assert (HD : m !! u "D" = Some 1%nat) by (by vm_compute).
  clearbody m.
  destruct t0 as [|x0 t0]; [by apply (f_equal size) in H0|].
  destruct t1 as [|x1 t1]; [by apply (f_equal size) in H1|].
  destruct t2 as [|x2 t2]; [by apply (f_equal size) in H2|].
  assert (x0 = u "A" ∨ x0 = u "B") as E0 by set_solver.
  assert (x1 = u "B" ∨ x1 = u "C") as E1 by set_solver.
  assert (x2 = u "D") as -> by set_solver.
  cbn [zip zip_with result_mapM word_id fst snd].
  destruct E0 as [-> | ->], E1 as [-> | ->];
    by rewrite ?HA, ?HB, ?HC, ?HD.
Qed.

Lemma aggregate_three_words_witness :
  aggregate [u "w0"; u "w1"; u "w2"] [[u "A"; u "B"]; [u "B"; u "C"]; [u "D"]]
  = Ok [(u "w0", 0%nat); (u "w1", 0%nat); (u "w2", 1%nat)].
Proof.
  apply aggregate_three_words; apply (bool_decide_unpack _); vm_compute; exact I.
Defined.

Lemma result_mapM_Raise {A B} (f : A → result B) (l : list A) (e : pyerr) :
  result_mapM f l = Raise e → ∃ a, a ∈ l ∧ f a = Raise e.
Proof.
  induction l as [|a l IH]; cbn; [done|].
  destruct (f a) as [b|e'] eqn:Ha.
  - destruct (result_mapM f l) as [bs|e'']; [done|]. intros [= ->].
    destruct IH as (a' & Hin & Ha'); [done|]. exists a'. split; [by right | done].
  - intros [= ->]. exists a. split; [left | done].
Qed.

(** C5. The lookup of a word's primary candidate in [repname2id] cannot
    fail: [aggregate] never raises [KeyError], on any input. For a
    non-empty list of non-empty candidate tuples it returns, with one pair
    per word, and the primary candidate of every tuple is a key of the map. *)
Theorem aggregate_lookup_never_fails (words : list str) (repname_sets : list (list str)) :
  aggregate words repname_sets ≠ Raise KeyError
  ∧ (repname_sets ≠ [] → Forall (λ t, t ≠ []) repname_sets →
     ∃ out,
       aggregate words repname_sets = Ok out
       ∧ length out = (length words `min` length repname_sets)%nat
       ∧ ∀ first rest t repname,
           repname_sets = first :: rest → t ∈ repname_sets →
           head t = Some repname →
           is_Some (assign_ids (merge_all first rest) !! repname)).
Proof.
  split.
  - destruct repname_sets as [|first rest]; [done|]. unfold aggregate.
    intros ([w t] & Hin & Hraise)%result_mapM_Raise.
    apply elem_of_zip_r in Hin. unfold word_id in Hraise. cbn in Hraise.
    destruct t as [|repname t]; [done|].
    destruct (primary_in_map first rest (repname :: t) repname Hin eq_refl)
      as [i Hi].
    by rewrite Hi in Hraise.
  - intros Hne Hall. destruct repname_sets as [|first rest]; [done|].
    unfold aggregate.
    destruct (result_mapM_Ok (word_id (assign_ids (merge_all first rest)))
                (zip words (first :: rest))) as (out & Hout & Hlen).
    { apply Forall_forall. intros [w t] Hin.
      assert (Ht : t ∈ first :: rest) by (by eapply elem_of_zip_r).
      rewrite Forall_forall in Hall. specialize (Hall t Ht).
      destruct t as [|repname t]; [done|].
      destruct (primary_in_map first rest (repname :: t) repname Ht eq_refl)
        as [i Hi].
      exists (w, i). unfold word_id. cbn. by rewrite Hi. }
    exists out. split_and!; [done| |].
    + by rewrite Hlen, length_zip.
    + intros first' rest' t repname [= <- <-]. apply primary_in_map.
Qed.

Lemma aggregate_lookup_never_fails_witness :
  ∃ out, aggregate [u "w0"; u "w1"] [[u "A"]; [u "B"; u "A"]] = Ok out.
Proof.
  destruct (aggregate_lookup_never_fails [u "w0"; u "w1"] [[u "A"]; [u "B"; u "A"]])
    as [_ Hok].
  destruct Hok as (out & Hout & _).
  - discriminate.
  - repeat constructor; discriminate.
  - by exists out.
Defined.

Lemma filter_at_most_one {A} (P : A → Prop) `{∀ x, Decision (P x)}
    (l : list A) (i j : nat) (x y : A) :
  (length (filter P l) ≤ 1)%nat →
  l !! i = Some x → l !! j = Some y → P x → P y → i = j.
Proof.
  revert i j. induction l as [|a l IH]; intros i j Hlen Hi Hj Hx Hy; [done|].
  assert (Hnone : ∀ k z, P a → l !! k = Some z → P z → False).
  { intros k z Ha Hk Hz. rewrite filter_cons_True in Hlen by done.
    assert (Hin : z ∈ filter P l).
    { apply list_elem_of_filter. split; [done|]. by eapply list_elem_of_lookup_2. }
    destruct (filter P l); [by apply elem_of_nil in Hin | cbn in Hlen; lia]. }
  destruct i as [|i], j as [|j]; cbn in Hi, Hj; simplify_eq.
  - done.
  - by destruct (Hnone j y).
  - by destruct (Hnone i x).
  - f_equal. apply IH; try done.
    destruct (decide (P a)).
    + rewrite filter_cons_True in Hlen by done. cbn in Hlen. lia.
    + by rewrite filter_cons_False in Hlen.
Qed.

Lemma merge_word_disjoint (clusters : list (gset str)) (X : gset str) :
  pairwise_disjoint clusters →
  (length (filter (overlaps X) clusters) ≤ 1)%nat →
  pairwise_disjoint (merge_word clusters X).
Proof.
  intros Hdis Hone. unfold merge_word.
  destruct (list_find _ _) as [[k C]|] eqn:E.
  - apply list_find_Some in E as (Hk & HC & _).
    assert (Hother : ∀ j Cj, j ≠ k → clusters !! j = Some Cj → X ## Cj).
    { intros j Cj Hne Hj. apply not_overlaps_disjoint. intros HCj.
      apply Hne. by eapply (filter_at_most_one (overlaps X)). }
    intros i j Ci Cj Hne Hi Hj.
    apply list_lookup_insert_Some in Hi as [(<- & <- & _)|[Hik Hi]];
      apply list_lookup_insert_Some in Hj as [(<- & <- & _)|[Hjk Hj]].
    + done.
    + apply disjoint_union_l. split; [by eapply Hother | by eapply (Hdis k j)].
    + apply disjoint_union_r. split; [symmetry; by eapply Hother | by eapply (Hdis i k)].
    + by eapply (Hdis i j).
  - apply list_find_None in E. rewrite Forall_forall in E.
    assert (Hnew : ∀ j Cj, clusters !! j = Some Cj → X ## Cj).
    { intros j Cj Hj. apply not_overlaps_disjoint, E. by eapply list_elem_of_lookup_2. }
    intros i j Ci Cj Hne Hi Hj.
    apply lookup_snoc_Some in Hi as [[Hil Hi]|[-> <-]];
      apply lookup_snoc_Some in Hj as [[Hjl Hj]|[-> <-]].
    + by eapply (Hdis i j).
    + symmetry. by eapply Hnew.
    + by eapply Hnew.
    + done.
Qed.

Lemma foldl_merge_word_disjoint (sets clusters : list (gset str)) :
  pairwise_disjoint clusters → single_overlap clusters sets →
  pairwise_disjoint (foldl merge_word clusters sets).
Proof.
  revert clusters. induction sets as [|X sets IH]; intros clusters Hdis Hso; [done|].
  destruct Hso as [Hone Hso]. cbn. apply IH; [|done].
  by apply merge_word_disjoint.
Qed.

Lemma pairwise_disjoint_singleton (C : gset str) : pairwise_disjoint [C].
Proof.
  intros i j Ci Cj Hne Hi Hj.
  apply list_lookup_singleton_Some in Hi as [-> _].
  apply list_lookup_singleton_Some in Hj as [-> _]. done.
Qed.

(** The final clusters can share an element: with the sets [{A}], [{B}]
    and [{A, B}] the third word is merged into the first cluster only, and
    [B] ends up in both clusters. *)
Lemma merge_all_not_disjoint :
  ¬ pairwise_disjoint (merge_all [u "A"] [[u "B"]; [u "A"; u "B"]]).
Proof.
  intros Hdis.
  assert (H0 : merge_all [u "A"] [[u "B"]; [u "A"; u "B"]] !! 0%nat
               = Some ({[u "A"; u "B"]} : gset str)) by (by vm_compute).
  assert (H1 : merge_all [u "A"] [[u "B"]; [u "A"; u "B"]] !! 1%nat
               = Some ({[u "B"]} : gset str)) by (by vm_compute).
  specialize (Hdis 0%nat 1%nat _ _ ltac:(done) H0 H1).
  apply (Hdis (u "B")); set_solver.
Qed.

(** C9 (as the code has it). When every word's set, at its turn, overlaps
    at most one of the clusters that exist at that moment, the clusters
    of the final list are pairwise disjoint. *)
Theorem merge_all_disjoint_single_overlap (first : list str) (rest : list (list str)) :
  single_overlap [list_to_set first] (list_to_set <$> rest) →
  pairwise_disjoint (merge_all first rest).
Proof.
  intros Hso. apply foldl_merge_word_disjoint; [|done].
  apply pairwise_disjoint_singleton.
Qed.

Lemma merge_all_disjoint_single_overlap_witness :
  pairwise_disjoint (merge_all [u "A"; u "B"] [[u "B"; u "C"]; [u "D"]]).
Proof.
  apply merge_all_disjoint_single_overlap.
  cbn [fmap list_fmap single_overlap]. split_and!; [| |exact I].
  - apply (bool_decide_unpack _). vm_compute. exact I.
  - apply (bool_decide_unpack _). vm_compute. exact I.
Defined.

(** ** The numeral evaluator [_transvalue] *)

Lemma foldlM_app {A B} (f : A → B → option A) (a : A) (l1 l2 : list B) :
  foldlM f a (l1 ++ l2) = a' ← foldlM f a l1; foldlM f a' l2.
Proof.
  revert a. induction l1 as [|b l1 IH]; intros a; cbn; [done|].
  destruct (f a b) as [a'|]; cbn; [apply IH | done].
Qed.

Lemma foldlM_ext {A B} (f g : A → B → option A) (a : A) (l : list B) :
  (∀ a b, b ∈ l → f a b = g a b) → foldlM f a l = foldlM g a l.
Proof.
  revert a. induction l as [|b l IH]; intros a Hfg; cbn; [done|].
  rewrite Hfg by left. destruct (g a b) as [a'|]; cbn; [|done].
  apply IH. intros a0 b0 Hin. apply Hfg. by right.
Qed.

Lemma foldlM_is_Some {A B} (f : A → B → option A) (a : A) (l : list B) :
  (∀ a b, b ∈ l → is_Some (f a b)) → is_Some (foldlM f a l).
Proof.
  revert a. induction l as [|b l IH]; intros a Hf; cbn; [done|].
  destruct (Hf a b) as [a' ->]; [left|]. cbn.
  apply IH. intros a0 b0 Hin. apply Hf. by right.
Qed.

Lemma findall_leading (A B : char → bool) (c : char) (s : str) :
  A c = true → findall A B [] (c :: s) = [c] :: findall A B [] s.
Proof. cbn. by intros ->. Qed.

Lemma findall_Forall (Q : str → Prop) (A B : char → bool) (cur s : str) :
  (∀ c, A c = true → Q [c]) →
  (∀ r, r ≠ [] → forallb B r = true → Q r) →
  forallb B cur = true →
  Forall Q (findall A B cur s).
Proof.
  intros HA HB. revert cur.
  assert (Hemit : ∀ cur, forallb B cur = true → Forall Q (emit cur)).
  { intros [|c cur] Hcur; constructor; [by apply HB | constructor]. }
  induction s as [|c s IH]; intros cur Hcur; [by apply Hemit|].
  cbn [findall].
  assert (Hskip : Forall Q (if A c then [c] :: findall A B [] s else findall A B [] s)).
  { destruct (A c) eqn:EA; [constructor; [by apply HA|]|]; by apply IH. }
  destruct cur as [|c0 cur].
  - destruct (A c) eqn:EA; [done|].
    destruct (B c) eqn:EB; [|done]. apply IH. cbn. by rewrite EB.
  - destruct (B c) eqn:EB.
    + apply IH. rewrite forallb_app, Hcur. cbn. by rewrite EB.
    + apply Forall_app. split; [by apply Hemit | done].
Qed.

Lemma TRANSUNIT_Some (c : char) (v : N) :
  TRANSUNIT [c] = Some v → is_kunit c = true ∧ 1 < v.
Proof.
  unfold TRANSUNIT. intros Hv.
  repeat case_bool_decide; simplify_eq; (split; [by vm_compute | lia]).
Qed.

Lemma TRANSMANS_Some (c : char) (v : N) :
  TRANSMANS [c] = Some v → is_manshin c = true ∧ 1 < v.
Proof.
  unfold TRANSMANS. intros Hv.
  repeat case_bool_decide; simplify_eq; (split; [by vm_compute | lia]).
Qed.

Lemma is_kunit_TRANSUNIT (c : char) : is_kunit c = true → is_Some (TRANSUNIT [c]).
Proof.
  unfold is_kunit, TRANSUNIT. intros Hc%bool_decide_eq_true.
  repeat case_bool_decide; try done. set_solver.
Qed.

Section Transvalue.

Variable decimal : char → option N.

Lemma transvalue_unfold (fuel : nat) (re_obj : str → list str)
    (transdic : str → option N) (sj : str) :
  _transvalue decimal (S fuel) re_obj transdic sj
  = '(unit, result) ←
      foldlM (transvalue_step decimal transdic
                (_transvalue decimal fuel (re_kunit decimal) TRANSUNIT))
             (1, 0) (reverse (re_obj sj));
    Some (if 1 <? unit then result + unit else result).
Proof. done. Qed.

Lemma transvalue_flush (fuel : nat) (re_obj : str → list str)
    (transdic : str → option N) (sj : str) (unit result : N) :
  foldlM (transvalue_step decimal transdic
            (_transvalue decimal fuel (re_kunit decimal) TRANSUNIT))
         (1, 0) (reverse (re_obj sj)) = Some (unit, result) →
  _transvalue decimal (S fuel) re_obj transdic sj
  = Some (if 1 <? unit then result + unit else result).
Proof. intros Hloop. rewrite transvalue_unfold. by rewrite Hloop. Qed.

Lemma transvalue_nil (fuel : nat) (A B : char → bool) (transdic : str → option N) :
  _transvalue decimal (S fuel) (findall A B []) transdic [] = Some 0.
Proof. done. Qed.

Lemma transvalue_leading_unit (fuel : nat) (A B : char → bool)
    (transdic : str → option N) (c : char) (v : N) (s : str) :
  A c = true → transdic [c] = Some v → 1 < v →
  _transvalue decimal (S fuel) (findall A B []) transdic (c :: s)
  = r ← _transvalue decimal (S fuel) (findall A B []) transdic s; Some (r + v).
Proof.
  intros HA Hv Hgt. rewrite !transvalue_unfold, findall_leading by done.
  rewrite reverse_cons, foldlM_app.
  destruct (foldlM _ _ (reverse _)) as [[unit result]|]; cbn; [|done].
  rewrite Hv. cbn. by apply N.ltb_lt in Hgt as ->.
Qed.

Lemma isdecimal_run (r : str) :
  r ≠ [] → forallb (is_decimal_char decimal) r = true → isdecimal decimal r = true.
Proof.
  intros Hne Hall. unfold isdecimal. rewrite Hall.
  by rewrite bool_decide_eq_false_2.
Qed.

Lemma re_kunit_pieces (s : str) :
  Forall (λ p, is_Some (TRANSUNIT p) ∨ isdecimal decimal p = true) (re_kunit decimal s).
Proof.
  apply findall_Forall; [| |done].
  - intros c Hc. left. by apply is_kunit_TRANSUNIT.
  - intros r Hne Hall. right. by apply isdecimal_run.
Qed.

Lemma transvalue_step_no_nested (transdic : str → option N)
    (nested1 nested2 : str → option N) (st : N * N) (p : str) :
  is_Some (transdic p) ∨ isdecimal decimal p = true →
  transvalue_step decimal transdic nested1 st p
  = transvalue_step decimal transdic nested2 st p.
Proof.
  intros Hp. unfold transvalue_step. destruct st as [unit result].
  destruct (transdic p) as [v|]; [done|].
  destruct Hp as [[? ?]| ->]; done.
Qed.

Lemma transvalue_step_total (transdic : str → option N)
    (nested : str → option N) (st : N * N) (p : str) :
  is_Some (transdic p) ∨ isdecimal decimal p = true ∨ is_Some (nested p) →
  is_Some (transvalue_step decimal transdic nested st p).
Proof.
  intros Hp. unfold transvalue_step. destruct st as [unit result].
  destruct (transdic p) as [v|]; [done|].
  destruct (isdecimal decimal p); [done|].
  destruct Hp as [[? ?]|[?|[v ->]]]; done.
Qed.

(** At the level of the small units the recursive call is never reached:
    one unit of fuel is enough, and more fuel changes nothing. *)
Lemma transvalue_kunit_fuel (fuel : nat) (s : str) :
  _transvalue decimal (S fuel) (re_kunit decimal) TRANSUNIT s
  = _transvalue decimal 1 (re_kunit decimal) TRANSUNIT s.
Proof.
  rewrite !transvalue_unfold. f_equal. apply foldlM_ext. intros st p Hp.
  apply transvalue_step_no_nested.
  pose proof (re_kunit_pieces s) as Hall. rewrite Forall_forall in Hall.
  apply Hall. by apply elem_of_reverse.
Qed.

Lemma transvalue_kunit_total (fuel : nat) (s : str) :
  is_Some (_transvalue decimal (S fuel) (re_kunit decimal) TRANSUNIT s).
Proof.
  rewrite transvalue_unfold.
  destruct (foldlM_is_Some
              (transvalue_step decimal TRANSUNIT
                 (_transvalue decimal fuel (re_kunit decimal) TRANSUNIT))
              (1, 0) (reverse (re_kunit decimal s))) as [[unit result] ->]; [|done].
  intros st p Hp. apply transvalue_step_total.
  pose proof (re_kunit_pieces s) as Hall. rewrite Forall_forall in Hall.
  destruct (Hall p) as [?|?]; [by apply elem_of_reverse|by left|by right; left].
Qed.

(** The outer call, with [re_manshin] and [TRANSMANS], nests once: two
    units of fuel are enough, and more fuel changes nothing. *)
Lemma transvalue_manshin_fuel (fuel : nat) (s : str) :
  _transvalue decimal (S (S fuel)) re_manshin TRANSMANS s
  = _transvalue decimal 2 re_manshin TRANSMANS s.
Proof.
  rewrite !transvalue_unfold. f_equal. apply foldlM_ext. intros [unit result] p _.
  unfold transvalue_step. destruct (TRANSMANS p); [done|].
  destruct (isdecimal decimal p); [done|].
  f_equal. apply (transvalue_kunit_fuel fuel p).
Qed.

Lemma transvalue_manshin_total (fuel : nat) (s : str) :
  is_Some (_transvalue decimal (S (S fuel)) re_manshin TRANSMANS s).
Proof.
  rewrite transvalue_unfold.
  destruct (foldlM_is_Some
              (transvalue_step decimal TRANSMANS
                 (_transvalue decimal (S fuel) (re_kunit decimal) TRANSUNIT))
              (1, 0) (reverse (re_manshin s))) as [[unit result] ->]; [|done].
  intros st p _. apply transvalue_step_total. right; right.
  apply transvalue_kunit_total.
Qed.

End Transvalue.

(** ** [str.replace] on a segmented string *)

Lemma replace_from_skip (old new a b : str) :
  replace_from old new (length a) (a ++ b) = replace_from old new 0 b.
Proof. induction a as [|c a IH]; [done | apply IH]. Qed.

Lemma replace_from_hit (old new b : str) :
  old ≠ [] →
  replace_from old new 0 (old ++ b) = new ++ replace_from old new 0 b.
Proof.
  intros Hne. destruct old as [|o old]; [done|].
  cbn [app replace_from]. rewrite bool_decide_eq_true_2 by (by exists b).
  cbn [length pred]. by rewrite replace_from_skip.
Qed.

Lemma replace_from_miss (old new : str) (c : char) (s : str) :
  ¬ old `prefix_of` c :: s →
  replace_from old new 0 (c :: s) = c :: replace_from old new 0 s.
Proof. intros Hno. cbn [replace_from]. by rewrite bool_decide_eq_false_2. Qed.

Lemma replace_nonempty (old new s : str) :
  old ≠ [] → replace old new s = replace_from old new 0 s.
Proof. by destruct old. Qed.

(** What follows a run: the end of the string or a character outside the class. *)
Definition run_end (P : char → bool) (rest : str) : Prop :=
  match rest with [] => True | c :: _ => P c = false end.

Lemma prefix_within_run (P : char → bool) (old l rest : str) :
  forallb P old = true → run_end P rest →
  old `prefix_of` l ++ rest → old `prefix_of` l.
Proof.
  revert old. induction l as [|x l IH]; intros old Hold Hend Hpre.
  - destruct old as [|o old]; [done|]. destruct rest as [|c rest].
    + by apply prefix_nil_inv in Hpre.
    + cbn in Hpre, Hend. apply prefix_cons_inv_1 in Hpre as ->.
      cbn in Hold. by rewrite Hend in Hold.
  - destruct old as [|o old]; [apply prefix_nil|].
    cbn in Hpre. pose proof (prefix_cons_inv_1 _ _ _ _ Hpre) as ->.
    apply prefix_cons_inv_2 in Hpre. apply prefix_cons.
    cbn in Hold. apply andb_prop in Hold as [_ Hold]. by apply IH.
Qed.

Lemma occurs_cons (a b : str) (c : char) : occurs a b → occurs a (c :: b).
Proof. intros (p & q & ->). by exists (c :: p), q. Qed.

Lemma occurs_prefix (a b : str) : a `prefix_of` b → occurs a b.
Proof. intros [q ->]. by exists [], q. Qed.

Lemma occurs_length (a b : str) : occurs a b → (length a ≤ length b)%nat.
Proof. intros (p & q & ->). rewrite !length_app. lia. Qed.

Lemma occurs_same_length (a b : str) :
  occurs a b → length a = length b → a = b.
Proof.
  intros (p & q & ->) Hlen. rewrite !length_app in Hlen.
  destruct p; [|cbn in Hlen; lia]. destruct q; [|cbn in Hlen; lia].
  by rewrite app_nil_r.
Qed.

Lemma occurs_forallb (P : char → bool) (a b : str) :
  occurs a b → forallb P b = true → forallb P a = true.
Proof.
  intros (p & q & ->). rewrite !forallb_app.
  intros [_ [? _]%andb_prop]%andb_prop. done.
Qed.

Lemma replace_from_run_miss (P : char → bool) (old new r rest : str) :
  old ≠ [] → forallb P old = true → ¬ occurs old r → run_end P rest →
  replace_from old new 0 (r ++ rest) = r ++ replace_from old new 0 rest.
Proof.
  intros Hne Hold Hno Hend. induction r as [|c r IH]; [done|].
  cbn [app]. rewrite replace_from_miss.
  - f_equal. apply IH. intros Hocc. by apply Hno, occurs_cons.
  - intros Hpre. apply Hno, occurs_prefix.
    by apply (prefix_within_run P old (c :: r) rest).
Qed.

Lemma render_cons (it : item) (its : list item) :
  render (it :: its) = flat it ++ render its.
Proof. done. Qed.

Lemma replace_items (P : char → bool) (old new : str) (its : list item) :
  old ≠ [] → forallb P old = true → wf_items P its →
  (∀ r, Run r ∈ its → r = old ∨ ¬ occurs old r) →
  replace old new (render its) = render (subst_run old new <$> its).
Proof.
  intros Hne Hold Hwf. rewrite replace_nonempty by done.
  assert (Hgap : ∀ c s, P c = false → ¬ old `prefix_of` c :: s).
  { intros c s Hc Hpre. destruct old as [|o old]; [done|].
    apply prefix_cons_inv_1 in Hpre as ->. cbn in Hold. by rewrite Hc in Hold. }
  assert (Hrun : ∀ r rest, (r = old ∨ ¬ occurs old r) → run_end P rest →
            replace_from old new 0 (r ++ rest)
            = flat (subst_run old new (Run r)) ++ replace_from old new 0 rest).
  { intros r rest [-> | Hno] Hend; cbn.
    - rewrite bool_decide_eq_true_2 by done. by apply replace_from_hit.
    - rewrite bool_decide_eq_false_2.
      + by apply (replace_from_run_miss P).
      + intros ->. apply Hno. by exists [], []; rewrite app_nil_r. }
  induction Hwf as [|c its Hc Hwf IH|r Hr HPr|r c its Hr HPr Hwf IH]; intros Hruns.
  - done.
  - rewrite fmap_cons, !render_cons. cbn [flat subst_run app].
    rewrite replace_from_miss by (by apply Hgap). f_equal.
    apply IH. intros r Hin. apply Hruns. by right.
  - apply (Hrun r []); [|exact I]. apply Hruns. left.
  - rewrite fmap_cons, !render_cons. rewrite <- IH.
    + apply Hrun; [|cbn; by inversion Hwf]. apply Hruns. left.
    + intros r' Hin. apply Hruns. by right.
Qed.

(** ** Segmenting a string *)

Lemma render_emit_run (cur : str) (its : list item) :
  render (emit_run cur ++ its) = cur ++ render its.
Proof. by destruct cur. Qed.

Lemma render_segment (P : char → bool) (cur s : str) :
  render (segment P cur s) = cur ++ s.
Proof.
  revert cur. induction s as [|c s IH]; intros cur; cbn [segment].
  - rewrite <- (app_nil_r (emit_run cur)). by rewrite render_emit_run.
  - destruct (P c).
    + by rewrite IH, <- app_assoc.
    + rewrite render_emit_run, render_cons, IH. done.
Qed.

Lemma wf_emit_run_gap (P : char → bool) (cur : str) (c : char) (its : list item) :
  forallb P cur = true → wf_items P (Gap c :: its) →
  wf_items P (emit_run cur ++ Gap c :: its).
Proof. intros Hcur Hwf. destruct cur; [done|]. by apply wf_run_gap. Qed.

Lemma wf_segment (P : char → bool) (cur s : str) :
  forallb P cur = true → wf_items P (segment P cur s).
Proof.
  revert cur. induction s as [|c s IH]; intros cur Hcur; cbn [segment].
  - destruct cur; [apply wf_nil | by apply wf_run_end].
  - destruct (P c) eqn:EP.
    + apply IH. rewrite forallb_app, Hcur. cbn. by rewrite EP.
    + apply wf_emit_run_gap; [done|]. apply wf_gap; [done|]. by apply IH.
Qed.

Lemma runs_of_app (its1 its2 : list item) :
  runs_of (its1 ++ its2) = runs_of its1 ++ runs_of its2.
Proof. unfold runs_of. apply bind_app. Qed.

Lemma runs_of_segment (P : char → bool) (cur s : str) :
  runs_of (segment P cur s) = findall (λ _, false) P cur s.
Proof.
  revert cur. induction s as [|c s IH]; intros cur; cbn [segment findall].
  - by destruct cur.
  - destruct cur as [|c0 cur]; destruct (P c).
    + apply IH.
    + apply IH.
    + apply IH.
    + rewrite runs_of_app. cbn. by rewrite <- IH.
Qed.

Lemma elem_of_runs_of (its : list item) (r : str) :
  r ∈ runs_of its ↔ Run r ∈ its.
Proof.
  unfold runs_of. rewrite list_elem_of_bind. split.
  - intros ([c|r'] & Hin & Hits); [by apply elem_of_nil in Hin|].
    by apply list_elem_of_singleton in Hin as ->.
  - intros Hin. exists (Run r). split; [left | done].
Qed.

Lemma wf_items_run (P : char → bool) (its : list item) (r : str) :
  wf_items P its → Run r ∈ its → r ≠ [] ∧ forallb P r = true.
Proof.
  induction 1 as [|c its Hc Hwf IH|r' Hr HPr|r' c its Hr HPr Hwf IH]; intros Hin.
  - by apply elem_of_nil in Hin.
  - apply elem_of_cons in Hin as [?|Hin]; [done | by apply IH].
  - apply list_elem_of_singleton in Hin. by simplify_eq.
  - apply elem_of_cons in Hin as [?|Hin]; [by simplify_eq | by apply IH].
Qed.

(** ** [sorted] *)

Lemma insert_by_len_perm (x : str) (l : list str) : insert_by_len x l ≡ₚ x :: l.
Proof.
  induction l as [|y l IH]; cbn; [done|].
  case_bool_decide; [done|]. rewrite IH. apply perm_swap.
Qed.

Lemma sorted_by_len_desc_perm (l : list str) : sorted_by_len_desc l ≡ₚ l.
Proof.
  induction l as [|x l IH]; cbn; [done|].
  by rewrite insert_by_len_perm, IH.
Qed.

Lemma insert_by_len_sorted (x : str) (l : list str) :
  StronglySorted longer_first l → StronglySorted longer_first (insert_by_len x l).
Proof.
  induction 1 as [|y l Hl IH Hy]; cbn.
  - repeat constructor.
  - case_bool_decide as Hxy.
    + constructor; [by constructor|]. constructor; [done|].
      eapply Forall_impl; [exact Hy|]. unfold longer_first. cbn. lia.
    + constructor; [done|]. rewrite insert_by_len_perm.
      constructor; [unfold longer_first; lia | done].
Qed.

Lemma sorted_by_len_desc_sorted (l : list str) :
  StronglySorted longer_first (sorted_by_len_desc l).
Proof.
  induction l as [|x l IH]; cbn; [constructor|]. by apply insert_by_len_sorted.
Qed.

Lemma StronglySorted_lookup_lt {A} (R : A → A → Prop) (l : list A)
    (i j : nat) (a b : A) :
  StronglySorted R l → l !! i = Some a → l !! j = Some b → (i < j)%nat → R a b.
Proof.
  intros Hl. revert i j. induction Hl as [|x l Hl IH Hx]; intros i j Hi Hj Hlt; [done|].
  destruct j as [|j]; [lia|]. cbn in Hj. destruct i as [|i]; cbn in Hi.
  - simplify_eq. rewrite Forall_forall in Hx. apply Hx.
    by eapply list_elem_of_lookup_2.
  - apply (IH i j); [done..|lia].
Qed.

Lemma set_iter_elem_of (set_iter : list str → list str) (l : list str) (x : str) :
  set_iter_ok set_iter → x ∈ sorted_by_len_desc (set_iter l) ↔ x ∈ l.
Proof.
  intros Hok. by rewrite sorted_by_len_desc_perm, (Hok l), elem_of_remove_dups.
Qed.

(** ** [str] of a number *)

Lemma uint_chars_ascii (d : Decimal.uint) : Forall ascii_digit (uint_chars d).
Proof.
  induction d; cbn; constructor; try done; unfold ascii_digit; lia.
Qed.

Lemma py_str_ascii (n : N) : Forall ascii_digit (py_str n).
Proof. apply uint_chars_ascii. Qed.

Lemma py_str_nonempty (n : N) : py_str n ≠ [].
Proof.
  unfold py_str. destruct n as [|p]; cbn; [done|].
  pose proof (Unsigned.to_uint_nonnil p) as Hp.
  by destruct (Pos.to_uint p).
Qed.

(** ** The loop over the runs *)

Section Runs.

Variable decimal : char → option N.
Hypothesis decimal_ok : decimal_ascii decimal.

Local Abbreviation P := (is_suji decimal).
Local Abbreviation isdec := (is_decimal_char decimal).

Lemma ascii_digits_decimal (s : str) :
  Forall ascii_digit s → forallb isdec s = true.
Proof.
  induction 1 as [|c s Hc _ IH]; cbn [forallb]; [done|]. rewrite IH, andb_true_r.
  unfold is_decimal_char. apply bool_decide_eq_true. by rewrite decimal_ok.
Qed.

Lemma decimal_is_suji (s : str) : forallb isdec s = true → forallb P s = true.
Proof.
  induction s as [|c s IH]; cbn [forallb]; [done|]. intros [Hc Hs]%andb_prop.
  rewrite IH by done. unfold is_suji. rewrite Hc. by rewrite !orb_true_r.
Qed.

Lemma run_value_decimal (r : str) : isdecimal decimal (run_value decimal r) = true.
Proof.
  apply isdecimal_run; [apply py_str_nonempty|].
  apply ascii_digits_decimal, py_str_ascii.
Qed.

Lemma run_value_nonempty (r : str) : run_value decimal r ≠ [].
Proof. apply py_str_nonempty. Qed.

Lemma run_value_suji (r : str) : forallb P (run_value decimal r) = true.
Proof. apply decimal_is_suji, ascii_digits_decimal, py_str_ascii. Qed.

Lemma isdecimal_forallb (r : str) :
  isdecimal decimal r = true → forallb isdec r = true.
Proof. unfold isdecimal. by intros [_ ?]%andb_prop. Qed.

Lemma not_occurs_in_decimal (s r : str) :
  s ≠ [] → isdecimal decimal s = false → forallb isdec r = true → ¬ occurs s r.
Proof.
  intros Hne Hs Hr Hocc.
  apply (occurs_forallb _ _ _ Hocc) in Hr.
  by rewrite (isdecimal_run decimal s Hne Hr) in Hs.
Qed.

Lemma replace_suji_eq (fuel : nat) (t s : str) :
  replace_suji decimal (S (S fuel)) t s
  = Some (if isdecimal decimal s then t else replace s (run_value decimal s) t).
Proof.
  unfold replace_suji, run_value. destruct (isdecimal decimal s); [done|].
  rewrite transvalue_manshin_fuel.
  by destruct (transvalue_manshin_total decimal 0 s) as [v ->].
Qed.

Lemma wf_convert_run (processed : list str) (its : list item) :
  wf_items P its → wf_items P (convert_run decimal processed <$> its).
Proof.
  assert (Hrun : ∀ r, r ≠ [] → forallb P r = true →
            ∃ r', convert_run decimal processed (Run r) = Run r'
                  ∧ r' ≠ [] ∧ forallb P r' = true).
  { intros r Hr HPr. cbn. destruct (_ && _).
    - eexists. split; [done|]. split; [apply run_value_nonempty | apply run_value_suji].
    - by exists r. }
  induction 1 as [|c its Hc Hwf IH|r Hr HPr|r c its Hr HPr Hwf IH].
  - constructor.
  - rewrite fmap_cons. by constructor.
  - destruct (Hrun r Hr HPr) as (r' & Hr' & ? & ?).
    rewrite fmap_cons, Hr'. by constructor.
  - destruct (Hrun r Hr HPr) as (r' & Hr' & ? & ?).
    rewrite fmap_cons, Hr'. rewrite fmap_cons in IH |- *. by constructor.
Qed.

Lemma convert_run_skip (processed : list str) (s : str) (it : item) :
  isdecimal decimal s = true →
  convert_run decimal (s :: processed) it = convert_run decimal processed it.
Proof.
  intros Hs. destruct it as [c|r]; [done|]. cbn.
  destruct (decide (r = s)) as [->|Hne].
  - by rewrite Hs, !andb_false_r.
  - by rewrite (bool_decide_ext (r ∈ s :: processed) (r ∈ processed))
      by (rewrite elem_of_cons; naive_solver).
Qed.

Lemma convert_run_step (processed : list str) (s : str) (it : item) :
  isdecimal decimal s = false →
  subst_run s (run_value decimal s) (convert_run decimal processed it)
  = convert_run decimal (s :: processed) it.
Proof.
  intros Hs. destruct it as [c|r]; [done|]. cbn.
  assert (Hval : ∀ r', run_value decimal r' ≠ s).
  { intros r' Heq. by rewrite <- Heq, run_value_decimal in Hs. }
  destruct (decide (r = s)) as [->|Hne].
  - rewrite Hs, andb_true_r, (bool_decide_eq_true_2 (s ∈ s :: processed)) by left.
    case_bool_decide; cbn.
    + by rewrite bool_decide_eq_false_2.
    + by rewrite bool_decide_eq_true_2.
  - rewrite (bool_decide_ext (r ∈ s :: processed) (r ∈ processed))
      by (rewrite elem_of_cons; naive_solver).
    destruct (_ && _); cbn; by rewrite bool_decide_eq_false_2.
Qed.

Lemma replace_step (its0 : list item) (processed : list str) (s : str) :
  wf_items P its0 → Run s ∈ its0 → isdecimal decimal s = false →
  (∀ r, Run r ∈ its0 → isdecimal decimal r = false → r ∉ processed →
        (length r ≤ length s)%nat) →
  replace s (run_value decimal s) (render (convert_run decimal processed <$> its0))
  = render (convert_run decimal (s :: processed) <$> its0).
Proof.
  intros Hwf Hs Hnd Hlen.
  destruct (wf_items_run _ _ _ Hwf Hs) as [Hsne HsP].
  rewrite (replace_items P); [| done | done | by apply wf_convert_run |].
  - rewrite <- list_fmap_compose. f_equal. apply list_fmap_ext.
    intros i it _. by apply convert_run_step.
  - intros r' [it [Hit Hin]]%list_elem_of_fmap.
    destruct it as [c|r]; [done|]. cbn in Hit.
    destruct (bool_decide (r ∈ processed) && negb (isdecimal decimal r)) eqn:E.
    + simplify_eq. right. apply not_occurs_in_decimal; [done..|].
      apply isdecimal_forallb, run_value_decimal.
    + simplify_eq. destruct (isdecimal decimal r) eqn:Er.
      * right. apply not_occurs_in_decimal; [done..|]. by apply isdecimal_forallb.
      * rewrite andb_true_r in E. apply bool_decide_eq_false in E.
        destruct (decide (r = s)) as [->|Hne]; [by left|]. right. intros Hocc.
        apply Hne. symmetry. apply occurs_same_length; [done|].
        apply Nat.le_antisymm; [by apply occurs_length | by apply Hlen].
Qed.

Lemma replace_fold (fuel : nat) (its0 : list item) (L processed : list str) :
  wf_items P its0 → Forall (λ s, Run s ∈ its0) L →
  StronglySorted longer_first L →
  (∀ r, Run r ∈ its0 → r ∈ processed ∨ r ∈ L) →
  foldlM (replace_suji decimal (S (S fuel)))
         (render (convert_run decimal processed <$> its0)) L
  = Some (render (convert_run decimal (reverse L ++ processed) <$> its0)).
Proof.
  intros Hwf. revert processed.
  induction L as [|s L IH]; intros processed HL Hsorted Hcover; [done|].
  apply Forall_cons in HL as [Hs HL].
  apply StronglySorted_inv in Hsorted as [Hsorted Hlen].
  cbn [foldlM]. rewrite replace_suji_eq. cbn [mbind option_bind].
  assert (Hnext : (if isdecimal decimal s
                   then render (convert_run decimal processed <$> its0)
                   else replace s (run_value decimal s)
                          (render (convert_run decimal processed <$> its0)))
                  = render (convert_run decimal (s :: processed) <$> its0)).
  { destruct (isdecimal decimal s) eqn:Es.
    - f_equal. apply list_fmap_ext. intros i it _. symmetry. by apply convert_run_skip.
    - apply replace_step; [done..|]. intros r Hr _ Hnp.
      destruct (Hcover r Hr) as [?|[->|HrL]%elem_of_cons]; [done|done|].
      rewrite Forall_forall in Hlen. by apply Hlen. }
  rewrite Hnext, IH; [|done..|].
  - by rewrite reverse_cons, <- app_assoc.
  - intros r Hr. rewrite elem_of_cons.
    destruct (Hcover r Hr) as [?|[->|?]%elem_of_cons]; auto.
Qed.

Lemma convert_run_nil (it : item) : convert_run decimal [] it = it.
Proof.
  destruct it as [c|r]; [done|]. cbn.
  by rewrite (bool_decide_eq_false_2 (r ∈ [])) by apply not_elem_of_nil.
Qed.

Lemma convert_run_all (processed : list str) (r : str) :
  r ∈ processed →
  convert_run decimal processed (Run r) = convert_all decimal (Run r).
Proof.
  intros Hin. cbn. rewrite bool_decide_eq_true_2 by done.
  by destruct (isdecimal decimal r).
Qed.

(** Whatever order the runs are taken in, the loop replaces each run that is
    not a plain decimal number, where it stands, by its value. *)
Lemma kansuji2arabic_canonical (h2z : str → str) (fuel : nat)
    (set_iter : list str → list str) (kstring : str) :
  set_iter_ok set_iter →
  kansuji2arabic decimal h2z (S (S fuel)) set_iter kstring
  = Some (h2z (render (convert_all decimal
                         <$> segment P [] (translate tt_ksuji kstring)))).
Proof.
  intros Hiter. unfold kansuji2arabic.
  set (t0 := translate tt_ksuji kstring).
  set (its0 := segment P [] t0).
  assert (Hwf : wf_items P its0) by (by apply wf_segment).
  assert (Hruns : re_suji decimal t0 = runs_of its0)
    by (symmetry; apply runs_of_segment).
  set (L := sorted_by_len_desc (set_iter (re_suji decimal t0))).
  assert (HL : ∀ r, r ∈ L ↔ Run r ∈ its0).
  { intros r. unfold L. by rewrite set_iter_elem_of, Hruns, elem_of_runs_of. }
  replace t0 with (render (convert_run decimal [] <$> its0)) at 1.
  2:{ rewrite (list_fmap_ext (convert_run decimal []) id its0)
        by (intros; apply convert_run_nil).
      rewrite list_fmap_id. apply (render_segment P [] t0). }
  rewrite (replace_fold fuel its0 L []); [| done | | apply sorted_by_len_desc_sorted |].
  - cbn [mbind option_bind]. do 3 f_equal. apply list_fmap_ext.
    intros i [c|r] Hi; [done|]. apply convert_run_all.
    rewrite app_nil_r, elem_of_reverse. apply HL. by eapply list_elem_of_lookup_2.
  - apply Forall_forall. intros r. apply HL.
  - intros r Hr. right. by apply HL.
Qed.

End Runs.

(** ** The converter reads the table pointwise *)

Section TableExt.

Variables d1 d2 : char → option N.
Hypothesis d_ext : ∀ c, d1 c = d2 c.

Lemma is_decimal_char_ext (c : char) : is_decimal_char d1 c = is_decimal_char d2 c.
Proof. unfold is_decimal_char. by rewrite d_ext. Qed.

Lemma isdecimal_ext (s : str) : isdecimal d1 s = isdecimal d2 s.
Proof.
  unfold isdecimal. f_equal.
  induction s as [|c s IH]; cbn [forallb]; [done|].
  by rewrite is_decimal_char_ext, IH.
Qed.

Lemma int_of_ext (s : str) : int_of d1 s = int_of d2 s.
Proof.
  unfold int_of.
  assert (H : ∀ acc, foldl (λ acc c, 10 * acc + default 0 (d1 c)) acc s
                     = foldl (λ acc c, 10 * acc + default 0 (d2 c)) acc s); [|apply H].
  induction s as [|c s IH]; intros acc; cbn [foldl]; [done|].
  by rewrite d_ext, IH.
Qed.

Lemma findall_ext (A B1 B2 : char → bool) (cur s : str) :
  (∀ c, B1 c = B2 c) → findall A B1 cur s = findall A B2 cur s.
Proof.
  intros HB. revert cur.
  induction s as [|c s IH]; intros cur; cbn [findall]; [done|].
  rewrite HB. destruct cur, (A c), (B2 c); by rewrite ?IH.
Qed.

Lemma re_suji_ext (s : str) : re_suji d1 s = re_suji d2 s.
Proof.
  apply findall_ext. intros c. unfold is_suji. by rewrite is_decimal_char_ext.
Qed.

Lemma re_kunit_ext (s : str) : re_kunit d1 s = re_kunit d2 s.
Proof. apply findall_ext, is_decimal_char_ext. Qed.

Lemma transvalue_ext (fuel : nat) (re1 re2 : str → list str)
    (transdic : str → option N) (sj : str) :
  (∀ s, re1 s = re2 s) →
  _transvalue d1 fuel re1 transdic sj = _transvalue d2 fuel re2 transdic sj.
Proof.
  revert re1 re2 transdic sj.
  induction fuel as [|fuel IH]; intros re1 re2 transdic sj Hre; [done|].
  rewrite !transvalue_unfold, Hre. f_equal.
  apply foldlM_ext. intros [unit result] p _. unfold transvalue_step.
  destruct (transdic p); [done|].
  rewrite isdecimal_ext, int_of_ext. destruct (isdecimal d2 p); [done|].
  f_equal. apply IH, re_kunit_ext.
Qed.

Lemma kansuji2arabic_ext (h2z : str → str) (fuel : nat)
    (set_iter : list str → list str) (kstring : str) :
  kansuji2arabic d1 h2z fuel set_iter kstring
  = kansuji2arabic d2 h2z fuel set_iter kstring.
Proof.
  unfold kansuji2arabic. rewrite re_suji_ext. f_equal.
  apply foldlM_ext. intros t suji _. unfold replace_suji.
  rewrite isdecimal_ext. destruct (isdecimal d2 suji); [done|].
  by rewrite (transvalue_ext fuel re_manshin re_manshin).
Qed.

End TableExt.

Lemma decimal_known_eq (decimal : char → option N) (c : char) :
  decimal_ascii decimal → decimal_kanji decimal →
  decimal c = decimal_known decimal c.
Proof.
  intros Hascii Hkanji. unfold decimal_known.
  case_bool_decide; [by apply Hascii|].
  destruct (is_kunit c || is_manshin c) eqn:E; [by apply Hkanji | done].
Qed.

Lemma decimal_known_ascii (decimal : char → option N) :
  decimal_ascii (decimal_known decimal).
Proof. intros c Hc. unfold decimal_known. by rewrite bool_decide_eq_true_2. Qed.

(** ** The instances are admissible *)

Lemma decimal_ja_ascii : decimal_ascii decimal_ja.
Proof. intros c Hc. unfold decimal_ja. by rewrite bool_decide_eq_true_2. Qed.

Lemma decimal_ja_kanji : decimal_kanji decimal_ja.
Proof.
  intros c Hc. apply orb_prop in Hc as [Hc|Hc];
    apply bool_decide_eq_true in Hc;
    repeat (apply elem_of_cons in Hc as [->|Hc]; [by vm_compute|]);
    by apply elem_of_nil in Hc.
Qed.

Lemma h2z_digit_widens : h2z_widens_digits h2z_digit.
Proof.
  intros s Hs. unfold h2z_digit. apply map_ext_Forall.
  eapply Forall_impl; [exact Hs|]. intros c Hc. cbn.
  by rewrite bool_decide_eq_true_2.
Qed.

Lemma set_iter_ok_remove_dups : set_iter_ok remove_dups.
Proof. by intros l. Qed.

Lemma set_iter_ok_reverse : set_iter_ok (reverse ∘ remove_dups).
Proof. intros l. cbn. apply reverse_Permutation. Qed.

(** ** The converter on its test values *)

Lemma kansuji2arabic_eval (decimal : char → option N) (h2z : str → str)
    (fuel : nat) (set_iter : list str → list str) (kstring digits : str) :
  decimal_ascii decimal → decimal_kanji decimal → set_iter_ok set_iter →
  render (convert_all (decimal_known decimal)
            <$> segment (is_suji (decimal_known decimal)) []
                  (translate tt_ksuji kstring)) = digits →
  kansuji2arabic decimal h2z (S (S fuel)) set_iter kstring = Some (h2z digits).
Proof.
  intros Hascii Hkanji Hiter Hdigits.
  rewrite (kansuji2arabic_ext decimal (decimal_known decimal))
    by (intros c; by apply decimal_known_eq).
  rewrite kansuji2arabic_canonical by (done || apply decimal_known_ascii).
  by rewrite Hdigits.
Qed.

Lemma h2z_widens_eval (h2z : str → str) (digits : str) :
  h2z_widens_digits h2z → Forall ascii_digit digits →
  h2z digits = map (λ c, c + 0xFEE0) digits.
Proof. intros Hh2z. apply Hh2z. Qed.

(** C3 (as the code has it). The converter computes the decimal strings
    10, 110, 2019, 10000 and 365 for 十, 百十, 二千十九, 一万 and
    三百六十五, and returns them through [zenhan.h2z]: the results are the
    full-width strings １０, １１０, ２０１９, １００００ and ３６５. This
    holds for every table of decimal digits that classifies the ASCII
    digits and the unit characters as Unicode does, every [h2z] that
    widens half-width digits, every iteration order of the set of runs,
    and any fuel from 2 on. *)
Theorem kansuji2arabic_test_values (decimal : char → option N) (h2z : str → str)
    (fuel : nat) (set_iter : list str → list str) :
  decimal_ascii decimal → decimal_kanji decimal →
  h2z_widens_digits h2z → set_iter_ok set_iter →
  (kansuji2arabic decimal h2z (S (S fuel)) set_iter (u "十") = Some (h2z (u "10"))
   ∧ kansuji2arabic decimal h2z (S (S fuel)) set_iter (u "百十") = Some (h2z (u "110"))
   ∧ kansuji2arabic decimal h2z (S (S fuel)) set_iter (u "二千十九") = Some (h2z (u "2019"))
   ∧ kansuji2arabic decimal h2z (S (S fuel)) set_iter (u "一万") = Some (h2z (u "10000"))
   ∧ kansuji2arabic decimal h2z (S (S fuel)) set_iter (u "三百六十五") = Some (h2z (u "365")))
  ∧ kansuji2arabic decimal h2z (S (S fuel)) set_iter (u "十") = Some (u "１０")
  ∧ kansuji2arabic decimal h2z (S (S fuel)) set_iter (u "百十") = Some (u "１１０")
  ∧ kansuji2arabic decimal h2z (S (S fuel)) set_iter (u "二千十九") = Some (u "２０１９")
  ∧ kansuji2arabic decimal h2z (S (S fuel)) set_iter (u "一万") = Some (u "１００００")
  ∧ kansuji2arabic decimal h2z (S (S fuel)) set_iter (u "三百六十五") = Some (u "３６５").
Proof.
  intros Hascii Hkanji Hh2z Hiter.
  assert (Hraw :
    kansuji2arabic decimal h2z (S (S fuel)) set_iter (u "十") = Some (h2z (u "10"))
    ∧ kansuji2arabic decimal h2z (S (S fuel)) set_iter (u "百十") = Some (h2z (u "110"))
    ∧ kansuji2arabic decimal h2z (S (S fuel)) set_iter (u "二千十九") = Some (h2z (u "2019"))
    ∧ kansuji2arabic decimal h2z (S (S fuel)) set_iter (u "一万") = Some (h2z (u "10000"))
    ∧ kansuji2arabic decimal h2z (S (S fuel)) set_iter (u "三百六十五") = Some (h2z (u "365"))).
  { split_and!; (apply kansuji2arabic_eval; [done..|by vm_compute]). }
  split; [exact Hraw|].
  destruct Hraw as (-> & -> & -> & -> & ->).
  split_and!; (rewrite h2z_widens_eval; [by vm_compute | done | ascii_digits]).
Qed.

Lemma kansuji2arabic_test_values_witness :
  kansuji2arabic decimal_ja h2z_digit 2 remove_dups (u "二千十九") = Some (u "２０１９").
Proof.
  apply (kansuji2arabic_test_values decimal_ja h2z_digit 0 remove_dups
           decimal_ja_ascii decimal_ja_kanji h2z_digit_widens set_iter_ok_remove_dups).
Defined.

(** With the digits widened as [zenhan.h2z] does, the value for 十 is the
    full-width string and not the ASCII string. *)
Lemma kansuji2arabic_not_ascii :
  kansuji2arabic decimal_ja h2z_digit 2 remove_dups (u "十") = Some (u "１０")
  ∧ kansuji2arabic decimal_ja h2z_digit 2 remove_dups (u "十") ≠ Some (u "10").
Proof. split; [by vm_compute | by vm_compute]. Qed.

(** ** Order of the runs, bare units and numeral morphemes *)

Lemma occurs_proper_shorter (a b : str) :
  occurs a b → a ≠ b → (length a < length b)%nat.
Proof.
  intros Hocc Hne. pose proof (occurs_length a b Hocc) as Hle.
  destruct (decide (length a = length b)) as [Heq|?]; [|lia].
  by destruct Hne; apply occurs_same_length.
Qed.

(** C6. The runs are taken longest first: a run stands before every other
    run that is a substring of it. With that, the loop of
    [kansuji2arabic] replaces every run that is not a plain decimal number
    by its value where the run stands, without touching anything else, so
    the result does not depend on the order in which the set of runs is
    iterated, hence not on the order among runs of equal length. Stated
    for every table that has the ASCII digits, every input and any fuel
    from 2 on, for which the function always returns. *)
Theorem kansuji2arabic_order_independent (decimal : char → option N)
    (h2z : str → str) (fuel : nat) (iter1 iter2 : list str → list str)
    (kstring : str) :
  decimal_ascii decimal → set_iter_ok iter1 → set_iter_ok iter2 →
  kansuji2arabic decimal h2z (S (S fuel)) iter1 kstring
  = kansuji2arabic decimal h2z (S (S fuel)) iter2 kstring
  ∧ kansuji2arabic decimal h2z (S (S fuel)) iter1 kstring
    = Some (h2z (render (convert_all decimal
                           <$> segment (is_suji decimal) []
                                 (translate tt_ksuji kstring))))
  ∧ (∀ i j a b,
       sorted_by_len_desc (iter1 (re_suji decimal (translate tt_ksuji kstring))) !! i
         = Some a →
       sorted_by_len_desc (iter1 (re_suji decimal (translate tt_ksuji kstring))) !! j
         = Some b →
       occurs a b → a ≠ b → (j < i)%nat).
Proof.
  intros Hascii Hiter1 Hiter2. split_and!.
  - by rewrite !kansuji2arabic_canonical.
  - by apply kansuji2arabic_canonical.
  - intros i j a b Hi Hj Hocc Hne.
    pose proof (occurs_proper_shorter a b Hocc Hne) as Hlt.
    destruct (Nat.lt_trichotomy i j) as [Hij|[->|?]]; [|by simplify_eq|done].
    pose proof (StronglySorted_lookup_lt longer_first _ i j a b
                  (sorted_by_len_desc_sorted _) Hi Hj Hij) as Hle.
    unfold longer_first in Hle. lia.
Qed.

Lemma kansuji2arabic_order_independent_witness :
  kansuji2arabic decimal_ja h2z_digit 2 remove_dups (u "二十と三十と二十三")
  = kansuji2arabic decimal_ja h2z_digit 2 (reverse ∘ remove_dups) (u "二十と三十と二十三").
Proof.
  apply (kansuji2arabic_order_independent decimal_ja h2z_digit 0
           remove_dups (reverse ∘ remove_dups) (u "二十と三十と二十三")
           decimal_ja_ascii set_iter_ok_remove_dups set_iter_ok_reverse).
Defined.

(** C7. In [_transvalue] the multiplier left pending after the scan is
    added to the result once, and only when it exceeds 1. A unit character
    at the head of the string, the last piece of the right-to-left scan,
    therefore counts for exactly one multiple of its value on top of the
    value of the rest, and a string that is one unit character evaluates
    to the value of that unit: 十 to 10, 万 to 10000. This holds for the
    small units ([re_kunit], [TRANSUNIT]) and for the large ones
    ([re_manshin], [TRANSMANS]), for every table and any fuel from 1 on. *)
Theorem transvalue_bare_unit (decimal : char → option N) (fuel : nat) :
  (∀ re_obj transdic sj unit result,
     foldlM (transvalue_step decimal transdic
               (_transvalue decimal fuel (re_kunit decimal) TRANSUNIT))
            (1, 0) (reverse (re_obj sj)) = Some (unit, result) →
     _transvalue decimal (S fuel) re_obj transdic sj
     = Some (if 1 <? unit then result + unit else result))
  ∧ (∀ c v s, TRANSUNIT [c] = Some v →
       _transvalue decimal (S fuel) (re_kunit decimal) TRANSUNIT (c :: s)
       = (r ← _transvalue decimal (S fuel) (re_kunit decimal) TRANSUNIT s;
          Some (r + v)))
  ∧ (∀ c v s, TRANSMANS [c] = Some v →
       _transvalue decimal (S fuel) re_manshin TRANSMANS (c :: s)
       = (r ← _transvalue decimal (S fuel) re_manshin TRANSMANS s;
          Some (r + v)))
  ∧ (∀ c v, TRANSUNIT [c] = Some v →
       _transvalue decimal (S fuel) (re_kunit decimal) TRANSUNIT [c] = Some v)
  ∧ (∀ c v, TRANSMANS [c] = Some v →
       _transvalue decimal (S fuel) re_manshin TRANSMANS [c] = Some v)
  ∧ _transvalue decimal (S fuel) (re_kunit decimal) TRANSUNIT (u "十") = Some 10
  ∧ _transvalue decimal (S fuel) re_manshin TRANSMANS (u "万") = Some 10000.
Proof.
  assert (Hunit : ∀ c v s, TRANSUNIT [c] = Some v →
            _transvalue decimal (S fuel) (re_kunit decimal) TRANSUNIT (c :: s)
            = (r ← _transvalue decimal (S fuel) (re_kunit decimal) TRANSUNIT s;
               Some (r + v))).
  { intros c v s Hv. destruct (TRANSUNIT_Some c v Hv) as [Hc Hgt].
    by apply transvalue_leading_unit. }
  assert (Hmans : ∀ c v s, TRANSMANS [c] = Some v →
            _transvalue decimal (S fuel) re_manshin TRANSMANS (c :: s)
            = (r ← _transvalue decimal (S fuel) re_manshin TRANSMANS s;
               Some (r + v))).
  { intros c v s Hv. destruct (TRANSMANS_Some c v Hv) as [Hc Hgt].
    by apply transvalue_leading_unit. }
  split_and!.
  - intros re_obj transdic sj unit result. apply transvalue_flush.
  - exact Hunit.
  - exact Hmans.
  - intros c v Hv. by rewrite (Hunit c v [] Hv).
  - intros c v Hv. by rewrite (Hmans c v [] Hv).
  - change (u "十") with [k_juu]. by rewrite (Hunit k_juu 10 []).
  - change (u "万") with [k_man]. by rewrite (Hmans k_man 10000 []).
Qed.

Lemma transvalue_bare_unit_witness :
  _transvalue decimal_ja 2 re_manshin TRANSMANS [k_man; k_man] = Some 20000.
Proof.
  destruct (transvalue_bare_unit decimal_ja 1) as (_ & _ & Hlead & _ & Hone & _).
  rewrite (Hlead k_man 10000 [k_man] eq_refl).
  by rewrite (Hone k_man 10000 eq_refl).
Defined.

(** C8. For a morpheme whose class is 数詞 the candidate tuple is
    [tuple(kansuji2arabic(mrph.midasi))]: one candidate per character of
    the converted string, each a one-character string, and never the
    converted string as a single candidate unless it has one character.
    A word analysed as one such morpheme gets exactly these one-character
    strings as its candidates. The conversion always returns (table with
    the ASCII digits, fuel from 2 on). *)
Theorem numeral_morpheme_candidates (decimal : char → option N)
    (h2z : str → str) (set_iter : list str → list str) (fuel : nat) (m : mrph) :
  decimal_ascii decimal → set_iter_ok set_iter → bunrui m = SUUSHI →
  ∃ s candidates,
    kansuji2arabic decimal h2z (S (S fuel)) set_iter (midasi m) = Some s
    ∧ mrph_candidates decimal h2z set_iter (S (S fuel)) m = Some candidates
    ∧ candidates = map (λ c, [c]) s
    ∧ length candidates = length s
    ∧ (∀ i c, s !! i = Some c ↔ candidates !! i = Some [c])
    ∧ (length s ≠ 1%nat → candidates ≠ [s])
    ∧ (∀ analysis word, analysis word = [m] →
         get_repname_set decimal h2z set_iter analysis (S (S fuel)) [word]
         = Some [candidates]).
Proof.
  intros Hascii Hiter Hnum.
  pose proof (kansuji2arabic_canonical decimal Hascii h2z fuel set_iter (midasi m) Hiter)
    as Hs.
  assert (Hcand : mrph_candidates decimal h2z set_iter (S (S fuel)) m
                  = (s ← kansuji2arabic decimal h2z (S (S fuel)) set_iter (midasi m);
                     Some (map (λ c, [c]) s))).
  { unfold mrph_candidates. by rewrite bool_decide_eq_true_2. }
  rewrite Hs in Hcand. cbn [mbind option_bind] in Hcand.
  eexists _, _. split_and!; [exact Hs | exact Hcand | done | ..].
  - apply length_map.
  - intros i c. rewrite list_lookup_fmap.
    destruct (_ !! i); cbn; naive_solver.
  - intros Hlen Heq. apply (f_equal length) in Heq.
    rewrite length_map in Heq. done.
  - intros analysis word Hword. unfold get_repname_set.
    cbn -[expand_ambiguity]. rewrite Hword. cbn -[expand_ambiguity].
    rewrite Hcand. cbn -[expand_ambiguity].
    by rewrite expand_ambiguity_single.
Qed.

Lemma numeral_morpheme_candidates_witness :
  mrph_candidates decimal_ja h2z_digit remove_dups 2
    (Mrph SUUSHI (u "二千十九") (u "二千十九/にせんじゅうきゅう"))
  = Some [u "２"; u "０"; u "１"; u "９"].
Proof.
  destruct (numeral_morpheme_candidates decimal_ja h2z_digit remove_dups 0
              (Mrph SUUSHI (u "二千十九") (u "二千十九/にせんじゅうきゅう"))
              decimal_ja_ascii set_iter_ok_remove_dups eq_refl)
    as (s & candidates & Hs & Hcand & -> & _).
  rewrite Hcand. vm_compute in Hs. injection Hs as <-. reflexivity.
Defined.

(** * Further properties *)

(** ** [aggregate]: the ids *)

Lemma lookup_set_fold_insert (i : nat) (m : gmap str nat) (C : gset str) (r : str) :
  set_fold (λ repname m, <[repname := i]> m) m C !! r
  = if decide (r ∈ C) then Some i else m !! r.
Proof.
  assert (H : (r ∈ C → set_fold (λ repname m, <[repname := i]> m) m C !! r = Some i)
              ∧ (r ∉ C → set_fold (λ repname m, <[repname := i]> m) m C !! r = m !! r)).
  { apply (set_fold_ind_L
             (λ res X, (r ∈ X → res !! r = Some i) ∧ (r ∉ X → res !! r = m !! r))).
    - split; [set_solver | done].
    - intros x X res Hx [IH1 IH2]. destruct (decide (x = r)) as [->|Hne].
      + rewrite lookup_insert_eq. split; [done | set_solver].
      + rewrite lookup_insert_ne by done. split.
        * intros Hr. apply IH1. set_solver.
        * intros Hr. apply IH2. set_solver. }
  destruct H as [H1 H2]. destruct (decide (r ∈ C)); auto.
Qed.

Lemma assign_ids_snoc (clusters : list (gset str)) (C : gset str) :
  assign_ids (clusters ++ [C])
  = set_fold (λ repname m, <[repname := length clusters]> m)
             (assign_ids clusters) C.
Proof.
  unfold assign_ids. rewrite imap_app, foldl_app. cbn.
  by rewrite Nat.add_0_r.
Qed.

Lemma assign_ids_lookup (clusters : list (gset str)) (r : str) (i : nat) :
  assign_ids clusters !! r = Some i
  ↔ ∃ C, clusters !! i = Some C ∧ r ∈ C
         ∧ ∀ j C', clusters !! j = Some C' → (i < j)%nat → r ∉ C'.
Proof.
  revert i. induction clusters as [|C clusters IH] using rev_ind; intros i.
  - split; [done | by intros (C & ? & _)].
  - rewrite assign_ids_snoc, lookup_set_fold_insert.
    destruct (decide (r ∈ C)) as [Hr|Hr].
    + split.
      * intros [= <-]. exists C. split_and!; [by apply list_lookup_middle|done|].
        intros j C' Hj Hlt. apply lookup_lt_Some in Hj.
        rewrite length_app in Hj. cbn in Hj. lia.
      * intros (C0 & Hi & Hr0 & Hlast). f_equal.
        pose proof (lookup_lt_Some _ _ _ Hi) as Hlt.
        rewrite length_app in Hlt. cbn in Hlt.
        destruct (decide (i = length clusters)) as [->|Hne]; [done|].
        destruct (Hlast (length clusters) C); [by apply list_lookup_middle|lia|done].
    + rewrite IH. split.
      * intros (C0 & Hi & Hr0 & Hlast). exists C0. split_and!; [|done|].
        { by apply lookup_app_l_Some. }
        intros j C' Hj Hlt. apply lookup_snoc_Some in Hj as [[_ Hj]|[_ <-]]; [|done].
        by eapply Hlast.
      * intros (C0 & Hi & Hr0 & Hlast).
        apply lookup_snoc_Some in Hi as [[Hlt Hi]|[_ <-]]; [|done].
        exists C0. split_and!; [done..|].
        intros j C' Hj Hij. eapply Hlast; [|done]. by apply lookup_app_l_Some.
Qed.

Lemma merge_word_length (clusters : list (gset str)) (X : gset str) :
  (length clusters ≤ length (merge_word clusters X) ≤ S (length clusters))%nat.
Proof.
  unfold merge_word. destruct (list_find _ _) as [[i C]|].
  - rewrite length_insert. lia.
  - rewrite length_app. cbn. lia.
Qed.

Lemma merge_all_length (first : list str) (rest : list (list str)) :
  (1 ≤ length (merge_all first rest) ≤ S (length rest))%nat.
Proof.
  induction rest as [|t rest IH] using rev_ind; [cbn; lia|].
  rewrite merge_all_snoc, length_app. cbn.
  pose proof (merge_word_length (merge_all first rest) (list_to_set t)). lia.
Qed.

Lemma result_mapM_Forall2 {A B} (f : A → result B) (l : list A) (out : list B) :
  result_mapM f l = Ok out → Forall2 (λ a b, f a = Ok b) l out.
Proof.
  revert out. induction l as [|a l IH]; intros out; cbn.
  - intros [= <-]. constructor.
  - destruct (f a) as [b|e] eqn:Ha; [|done].
    destruct (result_mapM f l) as [bs|e]; [|done].
    intros [= <-]. constructor; [done | by apply IH].
Qed.

Lemma zip_fst_take {A B} (l : list A) (k : list B) :
  (zip l k).*1 = take (length k) l.
Proof.
  revert k. induction l as [|a l IH]; intros [|b k]; cbn; [done..|].
  by rewrite IH.
Qed.

Lemma word_id_Ok (m : gmap str nat) (w : str) (t : list str) (p : str * nat) :
  word_id m (w, t) = Ok p →
  ∃ repname, head t = Some repname ∧ p.1 = w ∧ m !! repname = Some p.2.
Proof.
  unfold word_id. cbn. destruct t as [|repname t]; [done|].
  destruct (m !! repname) as [i|] eqn:Hi; [|done].
  intros [= <-]. by exists repname.
Qed.

Lemma word_ids_Forall2 (m : gmap str nat) (l : list (str * list str))
    (out : list (str * nat)) :
  Forall2 (λ a b, word_id m a = Ok b) l out →
  out.*1 = l.*1 ∧ Forall (λ p, ∃ repname, m !! repname = Some p.2) out.
Proof.
  induction 1 as [|[w t] p l out Hp _ [IH1 IH2]]; [done|].
  apply word_id_Ok in Hp as (repname & _ & <- & Hid). split.
  - cbn. by rewrite IH1.
  - constructor; [by exists repname | done].
Qed.

(** X1. When [aggregate] returns, its pairs carry the words in input order
    (as many as there are candidate tuples), and every id is the index of
    a cluster: smaller than the number of clusters, which is at most the
    number of candidate tuples. *)
Theorem aggregate_words_and_id_range (words : list str)
    (first : list str) (rest : list (list str)) (out : list (str * nat)) :
  aggregate words (first :: rest) = Ok out →
  out.*1 = take (S (length rest)) words
  ∧ Forall (λ p, (p.2 < length (merge_all first rest))%nat) out
  ∧ (1 ≤ length (merge_all first rest) ≤ S (length rest))%nat.
Proof.
  unfold aggregate. intros [Hw Hid]%result_mapM_Forall2%word_ids_Forall2.
  split; [|split].
  - by rewrite Hw, zip_fst_take.
  - eapply Forall_impl; [exact Hid|]. intros p (repname & Hp).
    apply assign_ids_lookup in Hp as (C & HC & _). by eapply lookup_lt_Some.
  - apply merge_all_length.
Qed.

Lemma aggregate_words_and_id_range_witness :
  ∃ out, aggregate [u "w0"; u "w1"; u "w2"] [[u "A"]; [u "B"; u "A"]] = Ok out
         ∧ out.*1 = [u "w0"; u "w1"].
Proof.
  exists [(u "w0", 0%nat); (u "w1", 0%nat)].
  assert (H : aggregate [u "w0"; u "w1"; u "w2"] [[u "A"]; [u "B"; u "A"]]
              = Ok [(u "w0", 0%nat); (u "w1", 0%nat)]) by (by vm_compute).
  split; [exact H|].
  by destruct (aggregate_words_and_id_range _ _ _ _ H) as (-> & _).
Defined.

(** X2. The id stored for a candidate is the index of the last cluster,
    in creation order, that contains it; a candidate of no cluster has no
    entry. *)
Theorem repname2id_last_cluster (clusters : list (gset str)) (repname : str) :
  (∀ i, assign_ids clusters !! repname = Some i
        ↔ ∃ C, clusters !! i = Some C ∧ repname ∈ C
               ∧ ∀ j C', clusters !! j = Some C' → (i < j)%nat → repname ∉ C')
  ∧ (assign_ids clusters !! repname = None ↔ repname ∉ ⋃ clusters).
Proof.
  split; [intros i; apply assign_ids_lookup|].
  rewrite <- not_elem_of_dom. by rewrite dom_assign_ids.
Qed.

(** X3. The keys of [repname2id] are exactly the candidates of all the
    words: merging neither drops nor invents a candidate. *)
Theorem repname2id_keys (first : list str) (rest : list (list str)) (repname : str) :
  is_Some (assign_ids (merge_all first rest) !! repname)
  ↔ ∃ t, t ∈ first :: rest ∧ repname ∈ t.
Proof.
  rewrite <- elem_of_dom, dom_assign_ids, merge_all_union, elem_of_union_list.
  split.
  - intros (X & [t [-> Ht]]%list_elem_of_fmap & Hr).
    exists t. split; [done|]. by apply elem_of_list_to_set in Hr.
  - intros (t & Ht & Hr). exists (list_to_set t). split.
    + apply list_elem_of_fmap. by exists t.
    + by apply elem_of_list_to_set.
Qed.

Lemma merge_word_grows (clusters : list (gset str)) (X : gset str)
    (i : nat) (C : gset str) :
  clusters !! i = Some C → ∃ C', merge_word clusters X !! i = Some C' ∧ C ⊆ C'.
Proof.
  intros Hi. unfold merge_word. destruct (list_find _ _) as [[k Ck]|] eqn:E.
  - apply list_find_Some in E as (Hk & _ & _).
    destruct (decide (k = i)) as [->|Hne].
    + exists (X ∪ Ck). split.
      * apply list_lookup_insert_eq. by eapply lookup_lt_Some.
      * simplify_eq. set_solver.
    + exists C. split; [by rewrite list_lookup_insert_ne | done].
  - exists C. split; [by apply lookup_app_l_Some | done].
Qed.

Lemma merge_word_absorbs (clusters : list (gset str)) (X : gset str) :
  ∃ i C, merge_word clusters X !! i = Some C ∧ X ⊆ C.
Proof.
  unfold merge_word. destruct (list_find _ _) as [[k Ck]|] eqn:E.
  - apply list_find_Some in E as (Hk & _ & _). exists k, (X ∪ Ck). split.
    + apply list_lookup_insert_eq. by eapply lookup_lt_Some.
    + set_solver.
  - exists (length clusters), X. split; [by apply list_lookup_middle | done].
Qed.

Lemma merge_all_contains (first : list str) (rest : list (list str)) (t : list str) :
  t ∈ first :: rest →
  ∃ i C, merge_all first rest !! i = Some C ∧ list_to_set t ⊆ C.
Proof.
  induction rest as [|t' rest IH] using rev_ind; intros Ht.
  - apply list_elem_of_singleton in Ht as ->. by exists 0%nat, (list_to_set first).
  - rewrite merge_all_snoc. rewrite app_comm_cons in Ht.
    apply elem_of_app in Ht as [Ht| ->%list_elem_of_singleton].
    + destruct (IH Ht) as (i & C & Hi & Hsub).
      destruct (merge_word_grows _ (list_to_set t') i C Hi) as (C' & Hi' & Hsub').
      exists i, C'. split; [done | set_solver].
    + apply merge_word_absorbs.
Qed.

Lemma assign_ids_disjoint (clusters : list (gset str)) (i : nat) (C : gset str) (r : str) :
  pairwise_disjoint clusters → clusters !! i = Some C → r ∈ C →
  assign_ids clusters !! r = Some i.
Proof.
  intros Hdis Hi Hr. apply assign_ids_lookup. exists C. split_and!; [done..|].
  intros j C' Hj Hlt Hr'.
  assert (Hne : i ≠ j) by lia.
  by apply (Hdis i j C C' Hne Hi Hj r).
Qed.

(** X4. When every word's set, at its turn, overlaps at most one existing
    cluster, two words whose candidate sets share a candidate get the same
    id, whichever of their candidates is looked up. *)
Theorem overlapping_words_share_id (first : list str) (rest : list (list str))
    (t1 t2 : list str) (r1 r2 x : str) :
  single_overlap [list_to_set first] (list_to_set <$> rest) →
  t1 ∈ first :: rest → t2 ∈ first :: rest →
  x ∈ t1 → x ∈ t2 → r1 ∈ t1 → r2 ∈ t2 →
  ∃ i, assign_ids (merge_all first rest) !! r1 = Some i
       ∧ assign_ids (merge_all first rest) !! r2 = Some i.
Proof.
  intros Hso Ht1 Ht2 Hx1 Hx2 Hr1 Hr2.
  assert (Hdis : pairwise_disjoint (merge_all first rest)).
  { apply foldl_merge_word_disjoint; [apply pairwise_disjoint_singleton | done]. }
  destruct (merge_all_contains first rest t1 Ht1) as (i1 & C1 & Hi1 & Hsub1).
  destruct (merge_all_contains first rest t2 Ht2) as (i2 & C2 & Hi2 & Hsub2).
  assert (i1 = i2) as <-.
  { destruct (decide (i1 = i2)) as [|Hne]; [done|].
    destruct (Hdis i1 i2 C1 C2 Hne Hi1 Hi2 x).
    - apply Hsub1. by apply elem_of_list_to_set.
    - apply Hsub2. by apply elem_of_list_to_set. }
  simplify_eq. exists i1. split.
  - apply (assign_ids_disjoint _ i1 C1); [done..|].
    apply Hsub1. by apply elem_of_list_to_set.
  - apply (assign_ids_disjoint _ i1 C1); [done..|].
    apply Hsub2. by apply elem_of_list_to_set.
Qed.

Lemma overlapping_words_share_id_witness :
  ∃ i, assign_ids (merge_all [u "A"; u "B"] [[u "B"; u "C"]; [u "D"]]) !! u "A" = Some i
       ∧ assign_ids (merge_all [u "A"; u "B"] [[u "B"; u "C"]; [u "D"]]) !! u "C" = Some i.
Proof.
  apply (overlapping_words_share_id [u "A"; u "B"] [[u "B"; u "C"]; [u "D"]]
           [u "A"; u "B"] [u "B"; u "C"] (u "A") (u "C") (u "B")).
  - cbn [fmap list_fmap single_overlap]. split_and!; [| |exact I].
    + apply (bool_decide_unpack _). vm_compute. exact I.
    + apply (bool_decide_unpack _). vm_compute. exact I.
  - apply (bool_decide_unpack _). vm_compute. exact I.
  - apply (bool_decide_unpack _). vm_compute. exact I.
  - apply (bool_decide_unpack _). vm_compute. exact I.
  - apply (bool_decide_unpack _). vm_compute. exact I.
  - apply (bool_decide_unpack _). vm_compute. exact I.
  - apply (bool_decide_unpack _). vm_compute. exact I.
Defined.

Lemma result_mapM_Ok_all {A B} (f : A → result B) (l : list A) (out : list B) (a : A) :
  result_mapM f l = Ok out → a ∈ l → ∃ b, f a = Ok b.
Proof.
  intros Hout%result_mapM_Forall2 Ha. revert Ha.
  induction Hout as [|a' b l out' Hb _ IH]; intros Ha.
  - by apply elem_of_nil in Ha.
  - apply elem_of_cons in Ha as [->|Ha]; [by exists b | by apply IH].
Qed.

Lemma aggregate_Raise (words : list str) (repname_sets : list (list str))
    (e : pyerr) :
  aggregate words repname_sets = Raise e →
  e = IndexError
  ∧ (repname_sets = [] ∨ ∃ w, (w, []) ∈ zip words repname_sets).
Proof.
  destruct repname_sets as [|first rest].
  - intros [= <-]. by split; [|left].
  - unfold aggregate. intros ([w t] & Hin & Hraise)%result_mapM_Raise.
    destruct t as [|repname t].
    + cbn in Hraise. simplify_eq. split; [done|]. right. by exists w.
    + pose proof (elem_of_zip_r _ _ _ _ Hin) as Ht.
      destruct (primary_in_map first rest (repname :: t) repname Ht eq_refl)
        as [i Hi].
      unfold word_id in Hraise. cbn in Hraise. by rewrite Hi in Hraise.
Qed.

(** X5. [aggregate] raises [IndexError] exactly when there is no candidate
    tuple at all, or when a word that is paired with a tuple has an empty
    tuple; it raises nothing else. *)
Theorem aggregate_index_error (words : list str) (repname_sets : list (list str)) :
  (aggregate words repname_sets = Raise IndexError
   ↔ repname_sets = [] ∨ ∃ w, (w, []) ∈ zip words repname_sets)
  ∧ ∀ e, aggregate words repname_sets = Raise e → e = IndexError.
Proof.
  split; [|intros e He; by destruct (aggregate_Raise _ _ e He)].
  split; [intros He; by destruct (aggregate_Raise _ _ _ He)|].
  intros [->|[w Hw]]; [done|].
  destruct (aggregate words repname_sets) as [out|e] eqn:Hagg.
  - destruct repname_sets as [|first rest]; [done|]. unfold aggregate in Hagg.
    by destruct (result_mapM_Ok_all _ _ _ _ Hagg Hw) as [b Hb].
  - by destruct (aggregate_Raise _ _ e Hagg) as [-> _].
Qed.

(** ** [expand_ambiguity]: which strings it returns *)

Lemma elem_of_product_tuple (s : str) (t1 t2 : list str) :
  s ∈ product_tuple t1 t2 ↔ ∃ a c, a ∈ t1 ∧ c ∈ t2 ∧ s = a ++ c.
Proof.
  unfold product_tuple. rewrite list_elem_of_bind. split.
  - intros (a & Hs & Ha). apply list_elem_of_bind in Hs as (c & Hs & Hc).
    apply list_elem_of_singleton in Hs. by exists a, c.
  - intros (a & c & Ha & Hc & ->). exists a. split; [|done].
    apply list_elem_of_bind. exists c. split; [left | done].
Qed.

(** X6. The strings [expand_ambiguity] returns are exactly the
    concatenations of one candidate per morpheme, taken in morpheme order. *)
Theorem expand_ambiguity_choices (repname : list (list str)) (s : str) :
  s ∈ expand_ambiguity repname
  ↔ ∃ choices, Forall2 (λ c t, c ∈ t) choices repname ∧ s = concat choices.
Proof.
  revert s. induction repname as [|t repname IH] using rev_ind; intros s.
  - change (expand_ambiguity []) with [[] : str].
    rewrite list_elem_of_singleton. split.
    + intros ->. exists []. by split; [constructor|].
    + intros (choices & Hall & ->). by apply Forall2_nil_inv_r in Hall as ->.
  - rewrite expand_ambiguity_snoc, elem_of_product_tuple. split.
    + intros (a & c & Ha & Hc & ->). apply IH in Ha as (choices & Hall & ->).
      exists (choices ++ [c]). split.
      * apply Forall2_app; [done|]. by repeat constructor.
      * by rewrite concat_app; cbn; rewrite app_nil_r.
    + intros (choices & Hall & ->).
      apply Forall2_app_inv_r in Hall as (ch & cs & Hch & Hcs & ->).
      apply Forall2_cons_inv_r in Hcs as (c & cs' & Hc & Hnil & ->).
      apply Forall2_nil_inv_r in Hnil as ->.
      exists (concat ch), c. split_and!; [|done|].
      * apply IH. by exists ch.
      * by rewrite concat_app; cbn; rewrite app_nil_r.
Qed.


(** X7. A word has no candidate at all exactly when one of its morphemes
    has none; its candidate tuple is then empty. *)
Theorem expand_ambiguity_empty_iff (repname : list (list str)) :
  expand_ambiguity repname = [] ↔ [] ∈ repname.
Proof.
  induction repname as [|t repname IH] using rev_ind.
  - split; [done | by intros ?%elem_of_nil].
  - rewrite expand_ambiguity_snoc, elem_of_app, list_elem_of_singleton, <- IH.
    pose proof (product_tuple_length (expand_ambiguity repname) t) as Hlen.
    split.
    + intros Hnil. rewrite Hnil in Hlen. cbn in Hlen.
      destruct (expand_ambiguity repname), t; cbn in Hlen; auto; lia.
    + intros [Hnil | <-].
      * rewrite Hnil. apply product_tuple_nil.
      * rewrite Nat.mul_0_r in Hlen. by apply nil_length_inv.
Qed.

(** ** [split] and the three kinds of morphemes *)

Lemma split_on_nonempty (sep : char) (cur s : str) : split_on sep cur s ≠ [].
Proof.
  revert cur. induction s as [|c s IH]; intros cur; cbn; [done|].
  case_bool_decide; [done | apply IH].
Qed.

Lemma join_cons (sep : char) (p : str) (ps : list str) :
  ps ≠ [] → join sep (p :: ps) = p ++ sep :: join sep ps.
Proof. by destruct ps. Qed.

Lemma join_split_on (sep : char) (cur s : str) :
  join sep (split_on sep cur s) = cur ++ s.
Proof.
  revert cur. induction s as [|c s IH]; intros cur; cbn [split_on].
  - cbn. by rewrite app_nil_r.
  - case_bool_decide as Hc.
    + rewrite join_cons by apply split_on_nonempty. rewrite IH. by subst.
    + rewrite IH. by rewrite <- app_assoc.
Qed.

Lemma split_on_no_sep (sep : char) (cur s : str) :
  sep ∉ cur → Forall (λ p, sep ∉ p) (split_on sep cur s).
Proof.
  revert cur. induction s as [|c s IH]; intros cur Hcur; cbn [split_on].
  - by constructor.
  - case_bool_decide as Hc.
    + constructor; [done|]. apply IH, not_elem_of_nil.
    + apply IH. rewrite elem_of_app, list_elem_of_singleton. naive_solver.
Qed.

Lemma split_on_app_no_sep (sep : char) (cur p s : str) :
  sep ∉ p → split_on sep cur (p ++ s) = split_on sep (cur ++ p) s.
Proof.
  revert cur. induction p as [|c p IH]; intros cur Hp; cbn [app split_on].
  - by rewrite app_nil_r.
  - apply not_elem_of_cons in Hp as [Hc Hp].
    rewrite bool_decide_eq_false_2 by done.
    rewrite IH by done. by rewrite <- app_assoc.
Qed.

Lemma split_on_join (sep : char) (cur p : str) (ps : list str) :
  Forall (λ q, sep ∉ q) (p :: ps) →
  split_on sep cur (join sep (p :: ps)) = (cur ++ p) :: ps.
Proof.
  revert cur p. induction ps as [|q ps IH]; intros cur p Hall.
  - apply Forall_cons in Hall as [Hp _]. cbn [join].
    rewrite <- (app_nil_r p) at 1. rewrite split_on_app_no_sep by done.
    done.
  - apply Forall_cons in Hall as [Hp Hall].
    rewrite join_cons by done. rewrite split_on_app_no_sep by done.
    cbn [split_on]. rewrite bool_decide_eq_true_2 by done.
    by rewrite IH.
Qed.

(** X8. A morpheme that is not a numeral never depends on the converter:
    for any fuel it has at least one candidate. When [mrph.repnames()] is
    the identifiers [names] joined by ['?'], the candidates are [names],
    in order; when it is empty, the only candidate is the surface form.
    Joining the candidates of a morpheme with identifiers by ['?'] gives
    [mrph.repnames()] back. *)
Theorem lexical_morpheme_candidates (decimal : char → option N)
    (h2z : str → str) (set_iter : list str → list str) (fuel : nat) (m : mrph) :
  bunrui m ≠ SUUSHI →
  ∃ candidates,
    mrph_candidates decimal h2z set_iter fuel m = Some candidates
    ∧ candidates ≠ []
    ∧ (repnames m = [] → candidates = [midasi m])
    ∧ (repnames m ≠ [] → join 0x3F candidates = repnames m
                         ∧ Forall (λ p, 0x3F ∉ p) candidates)
    ∧ (∀ names, repnames m ≠ [] → repnames m = join 0x3F names →
         Forall (λ p, 0x3F ∉ p) names → candidates = names).
Proof.
  intros Hnum. unfold mrph_candidates.
  rewrite bool_decide_eq_false_2 by done.
  case_bool_decide as Hrep.
  - eexists. split; [done|]. split_and!.
    + apply split_on_nonempty.
    + done.
    + intros _. split; [apply join_split_on | apply split_on_no_sep, not_elem_of_nil].
    + intros names _ Hjoin Hall. rewrite Hjoin.
      destruct names as [|p ps]; [by rewrite Hjoin in Hrep|].
      by rewrite split_on_join.
  - eexists. split; [done|]. by split_and!.
Qed.

Lemma lexical_morpheme_candidates_witness :
  mrph_candidates decimal_ja h2z_digit remove_dups 0
    (Mrph (u "普通名詞") (u "かぜ") (u "風/かぜ?風邪/かぜ"))
  = Some [u "風/かぜ"; u "風邪/かぜ"].
Proof.
  destruct (lexical_morpheme_candidates decimal_ja h2z_digit remove_dups 0
              (Mrph (u "普通名詞") (u "かぜ") (u "風/かぜ?風邪/かぜ")))
    as (candidates & -> & _ & _ & _ & Hnames).
  - by vm_compute.
  - f_equal. apply Hnames; [by vm_compute | by vm_compute|].
    repeat constructor; apply (bool_decide_unpack _); by vm_compute.
Defined.

(** ** [kansuji2arabic]: what it changes and what it leaves *)

Lemma tt_ksuji_values : Forall (λ p, ascii_digit p.2) tt_ksuji.
Proof. apply (bool_decide_unpack _). by vm_compute. Qed.

Lemma translate_char_cases (c : char) :
  let c' := default c (snd <$> find (λ p, bool_decide (p.1 = c)) tt_ksuji) in
  (c' = c ∧ c ∉ tt_ksuji.*1) ∨ (ascii_digit c' ∧ c ∈ tt_ksuji.*1).
Proof.
  cbn zeta. destruct (find _ tt_ksuji) as [p|] eqn:E;
    cbn [default fmap option_fmap option_map].
  - right. apply find_some in E as [Hin Hp]. apply bool_decide_eq_true in Hp.
    apply list_elem_of_In in Hin. split.
    + pose proof tt_ksuji_values as Hall. rewrite Forall_forall in Hall.
      by apply Hall.
    + subst c. exact (list_elem_of_fmap_2 fst tt_ksuji p Hin).
  - left. split; [done|]. intros [p [-> Hin]]%list_elem_of_fmap.
    apply list_elem_of_In in Hin.
    pose proof (find_none _ _ E p Hin) as Hp. cbn in Hp.
    by apply bool_decide_eq_false in Hp.
Qed.

Lemma ascii_digit_not_kansuji (c : char) : ascii_digit c → is_kansuji c = false.
Proof.
  unfold ascii_digit. intros Hc.
  destruct (is_kansuji c) eqn:E; [|done]. exfalso.
  unfold is_kansuji, is_kunit, is_manshin in E.
  apply orb_prop in E as [[E|E]%orb_prop|E]; apply bool_decide_eq_true in E;
    cbn in E;
    repeat (apply elem_of_cons in E as [->|E]; [vm_compute in Hc; by destruct Hc |]);
    by apply elem_of_nil in E.
Qed.

Lemma translate_keys_gone (k : str) :
  Forall (λ c, c ∉ tt_ksuji.*1) (translate tt_ksuji k).
Proof.
  unfold translate. apply Forall_forall. intros c' [c [-> _]]%list_elem_of_fmap.
  destruct (translate_char_cases c) as [[-> Hc]|[Hc _]]; [done|].
  intros Hkey. apply ascii_digit_not_kansuji in Hc.
  unfold is_kansuji in Hc. rewrite bool_decide_eq_true_2 in Hc by done. done.
Qed.

Lemma translate_units (k : str) :
  Forall (λ c, is_kunit c = false ∧ is_manshin c = false) k →
  Forall (λ c, is_kunit c = false ∧ is_manshin c = false) (translate tt_ksuji k).
Proof.
  intros Hk. unfold translate. apply Forall_forall.
  intros c' [c [-> Hin]]%list_elem_of_fmap.
  rewrite Forall_forall in Hk. destruct (Hk c Hin) as [Hu Hm].
  destruct (translate_char_cases c) as [[-> _]|[Hc _]]; [done|].
  apply ascii_digit_not_kansuji in Hc. unfold is_kansuji in Hc.
  apply orb_false_elim in Hc as [[_ ?]%orb_false_elim ?]. done.
Qed.

Lemma run_chars (its : list item) (r : str) (c : char) :
  Run r ∈ its → c ∈ r → c ∈ render its.
Proof.
  intros Hr Hc. unfold render. apply list_elem_of_bind. by exists (Run r).
Qed.

Lemma gap_char (its : list item) (c : char) : Gap c ∈ its → c ∈ render its.
Proof.
  intros Hc. unfold render. apply list_elem_of_bind. exists (Gap c).
  split; [left | done].
Qed.

Lemma foldlM_unchanged {A B} (f : A → B → option A) (a : A) (l : list B) :
  (∀ b, b ∈ l → f a b = Some a) → foldlM f a l = Some a.
Proof.
  induction l as [|b l IH]; intros Hf; cbn; [done|].
  rewrite Hf by left. cbn. apply IH. intros b' Hb'. apply Hf. by right.
Qed.

(** X9. A string without unit characters (十 拾 百 千 万 億 兆) is only
    transliterated and widened: its kanji digits become ASCII digits one
    by one, no run is evaluated and no fuel is needed. *)
Theorem kansuji2arabic_without_units (decimal : char → option N)
    (h2z : str → str) (fuel : nat) (set_iter : list str → list str)
    (kstring : str) :
  set_iter_ok set_iter →
  Forall (λ c, is_kunit c = false ∧ is_manshin c = false) kstring →
  kansuji2arabic decimal h2z fuel set_iter kstring
  = Some (h2z (translate tt_ksuji kstring)).
Proof.
  intros Hiter Hk%translate_units. unfold kansuji2arabic.
  set (t := translate tt_ksuji kstring) in *.
  rewrite foldlM_unchanged; [done|].
  intros s Hs. rewrite set_iter_elem_of in Hs by done.
  unfold re_suji in Hs. rewrite <- runs_of_segment, elem_of_runs_of in Hs.
  destruct (wf_items_run (is_suji decimal) _ s
              (wf_segment (is_suji decimal) [] t eq_refl) Hs) as [Hne HP].
  unfold replace_suji. rewrite isdecimal_run; [done..|].
  apply forallb_forall. intros c Hc%list_elem_of_In.
  rewrite forallb_forall in HP. pose proof (HP c (proj1 (list_elem_of_In _ _) Hc)) as HPc.
  assert (Hct : c ∈ render (segment (is_suji decimal) [] t))
    by (by eapply run_chars).
  rewrite render_segment in Hct.
  rewrite Forall_forall in Hk. destruct (Hk c Hct) as [Hu Hm].
  unfold is_suji in HPc. by rewrite Hu, Hm in HPc.
Qed.

Lemma kansuji2arabic_without_units_witness :
  kansuji2arabic decimal_ja h2z_digit 0 remove_dups (u "二〇一九年")
  = Some (u "２０１９年").
Proof.
  rewrite (kansuji2arabic_without_units decimal_ja h2z_digit 0 remove_dups
             (u "二〇一九年") set_iter_ok_remove_dups).
  - by vm_compute.
  - apply (bool_decide_unpack _). by vm_compute.
Defined.

Lemma wf_items_gap (P : char → bool) (its : list item) (c : char) :
  wf_items P its → Gap c ∈ its → P c = false.
Proof.
  induction 1 as [|c' its Hc Hwf IH|r Hr HPr|r c' its Hr HPr Hwf IH]; intros Hin.
  - by apply elem_of_nil in Hin.
  - apply elem_of_cons in Hin as [?|Hin]; [by simplify_eq | by apply IH].
  - by apply list_elem_of_singleton in Hin.
  - apply elem_of_cons in Hin as [?|Hin]; [done | by apply IH].
Qed.

Lemma filter_class_nil (P : char → bool) (r : str) :
  forallb P r = true → filter (λ c, P c = false) r = [].
Proof.
  induction r as [|c r IH]; [done|]. cbn [forallb]. intros [Hc Hr]%andb_prop.
  rewrite filter_cons_False by (by rewrite Hc). by apply IH.
Qed.

Section Outside.

Variable decimal : char → option N.
Hypothesis decimal_ok : decimal_ascii decimal.

Lemma convert_all_outside (its : list item) :
  wf_items (is_suji decimal) its →
  filter (λ c, is_suji decimal c = false) (render (convert_all decimal <$> its))
  = filter (λ c, is_suji decimal c = false) (render its).
Proof.
  intros Hwf.
  assert (Hruns : ∀ r, Run r ∈ its → forallb (is_suji decimal) r = true).
  { intros r Hr. by destruct (wf_items_run _ _ _ Hwf Hr). }
  clear Hwf. induction its as [|it its IH]; [done|].
  rewrite fmap_cons, !render_cons, !filter_app. rewrite IH.
  2:{ intros r Hr. apply Hruns. by right. }
  f_equal. destruct it as [c|r]; [done|]. cbn.
  rewrite (filter_class_nil _ r) by (apply Hruns; left).
  destruct (isdecimal decimal r); cbn.
  - apply filter_class_nil, Hruns. left.
  - apply filter_class_nil. by apply run_value_suji.
Qed.

Lemma convert_all_no_kansuji (its : list item) :
  decimal_kanji decimal →
  wf_items (is_suji decimal) its →
  Forall (λ c, c ∉ tt_ksuji.*1) (render its) →
  Forall (λ c, is_kansuji c = false) (render (convert_all decimal <$> its)).
Proof.
  intros Hkanji Hwf Hkeys. rewrite Forall_forall in Hkeys.
  assert (Hplain : ∀ c, c ∈ render its →
            is_kunit c || is_manshin c = false → is_kansuji c = false).
  { intros c Hc Hu. unfold is_kansuji.
    rewrite bool_decide_eq_false_2 by (by apply Hkeys).
    by rewrite <- orb_assoc, Hu. }
  apply Forall_forall. intros c Hc. unfold render in Hc.
  apply list_elem_of_bind in Hc as (it' & Hc & [it [-> Hit]]%list_elem_of_fmap).
  destruct it as [g|r]; cbn in Hc.
  - apply list_elem_of_singleton in Hc as ->.
    apply Hplain; [by apply gap_char|].
    pose proof (wf_items_gap _ _ _ Hwf Hit) as Hg. unfold is_suji in Hg.
    by apply orb_false_elim in Hg as [? _].
  - destruct (isdecimal decimal r) eqn:Er; cbn in Hc.
    + apply Hplain; [by eapply run_chars|].
      apply isdecimal_forallb in Er. rewrite forallb_forall in Er.
      pose proof (Er c (proj1 (list_elem_of_In _ _) Hc)) as Hd.
      destruct (is_kunit c || is_manshin c) eqn:Hu; [|done].
      unfold is_decimal_char in Hd. apply bool_decide_eq_true in Hd.
      rewrite (Hkanji c Hu) in Hd. by destruct Hd.
    + apply ascii_digit_not_kansuji.
      pose proof (py_str_ascii
        (default 0 (_transvalue decimal 2 re_manshin TRANSMANS r))) as Hall.
      rewrite Forall_forall in Hall. by apply Hall.
Qed.

End Outside.

(** X10. The string handed to [zenhan.h2z] at the end contains no kanji
    digit and no unit character any more, and outside the numeral runs it
    is the transliterated input, character for character. *)
Theorem kansuji2arabic_removes_kansuji (decimal : char → option N)
    (h2z : str → str) (fuel : nat) (set_iter : list str → list str)
    (kstring : str) :
  decimal_ascii decimal → decimal_kanji decimal → set_iter_ok set_iter →
  ∃ t, kansuji2arabic decimal h2z (S (S fuel)) set_iter kstring = Some (h2z t)
       ∧ Forall (λ c, is_kansuji c = false) t
       ∧ filter (λ c, is_suji decimal c = false) t
         = filter (λ c, is_suji decimal c = false) (translate tt_ksuji kstring).
Proof.
  intros Hascii Hkanji Hiter. eexists. split_and!.
  - by apply kansuji2arabic_canonical.
  - apply convert_all_no_kansuji; [done | by apply wf_segment |].
    rewrite render_segment. apply translate_keys_gone.
  - rewrite convert_all_outside by (done || by apply wf_segment).
    by rewrite render_segment.
Qed.

Lemma kansuji2arabic_removes_kansuji_witness :
  ∃ t, kansuji2arabic decimal_ja h2z_digit 2 remove_dups (u "第二十三回と十") = Some (h2z_digit t)
       ∧ Forall (λ c, is_kansuji c = false) t.
Proof.
  destruct (kansuji2arabic_removes_kansuji decimal_ja h2z_digit 0 remove_dups
              (u "第二十三回と十") decimal_ja_ascii decimal_ja_kanji
              set_iter_ok_remove_dups) as (t & Ht & Hno & _).
  by exists t.
Defined.

(** ** Numbers spelled in kanji *)

Lemma split_groups (n : N) :
  n < 10 ^ 16 →
  n / 10 ^ 12 < 10 ^ 4
  ∧ n = (n / 10 ^ 12) * 10 ^ 12 + (n / 10 ^ 8 mod 10 ^ 4) * 10 ^ 8
        + (n / 10 ^ 4 mod 10 ^ 4) * 10 ^ 4 + n mod 10 ^ 4.
Proof.
  intros Hn.
  assert (H12 : n / 10 ^ 12 = n / 10 ^ 8 / 10 ^ 4) by (by rewrite N.Div0.div_div).
  assert (H8 : n / 10 ^ 8 = n / 10 ^ 4 / 10 ^ 4) by (by rewrite N.Div0.div_div).
  pose proof (N.div_mod n (10 ^ 4) ltac:(done)) as E1.
  pose proof (N.div_mod (n / 10 ^ 4) (10 ^ 4) ltac:(done)) as E2.
  pose proof (N.div_mod (n / 10 ^ 8) (10 ^ 4) ltac:(done)) as E3.
  rewrite <- H8 in E2. rewrite <- H12 in E3.
  split.
  - apply N.Div0.div_lt_upper_bound. exact Hn.
  - change (10 ^ 12) with 1000000000000 in *.
    change (10 ^ 8) with 100000000 in *.
    change (10 ^ 4) with 10000 in *. lia.
Qed.

(** Every group of four digits passes the test, by running it. *)
Lemma all_groups_checked (decimal : char → option N) :
  forallb (group_check (decimal_known decimal))
          (N.of_nat <$> seq 1 (N.to_nat 9999)) = true.
Proof. by vm_compute. Qed.

Lemma group_checked (decimal : char → option N) (g : N) :
  0 < g < 10 ^ 4 → group_check (decimal_known decimal) g = true.
Proof.
  intros Hg. pose proof (all_groups_checked decimal) as Hall.
  rewrite forallb_forall in Hall. apply Hall. apply list_elem_of_In.
  apply list_elem_of_fmap. exists (N.to_nat g). split; [lia|].
  apply elem_of_seq. change (10 ^ 4) with 10000 in Hg. lia.
Qed.

Section Spelled.

Variable decimal : char → option N.
Local Abbreviation dk := (decimal_known decimal).
Local Abbreviation tg := (λ g, translate tt_ksuji (kanji_group g)).

Lemma group_facts (g : N) :
  0 < g < 10 ^ 4 →
  tg g ≠ []
  ∧ Forall (λ c, is_manshin c = false ∧ is_suji dk c = true) (tg g)
  ∧ piece_value dk 1 (tg g) = Some g
  ∧ (isdecimal dk (tg g) = true → tg g = py_str g).
Proof.
  intros Hg%(group_checked decimal). unfold group_check in Hg. cbn zeta in Hg.
  repeat (apply andb_prop in Hg as [Hg ?]).
  split_and!.
  - apply negb_true_iff, bool_decide_eq_false in Hg. exact Hg.
  - apply Forall_forall. intros c Hc%list_elem_of_In.
    match goal with H : forallb _ _ = true |- _ =>
      rewrite forallb_forall in H; apply H in Hc end.
    apply andb_prop in Hc as [Hm%negb_true_iff Hs]. done.
  - match goal with H : bool_decide (piece_value _ _ _ = _) = true |- _ =>
      by apply bool_decide_eq_true in H end.
  - intros Hdec.
    match goal with
    | H1 : bool_decide (g < 10) || negb _ = true,
      H2 : negb (bool_decide (g < 10)) || _ = true |- _ =>
      rewrite Hdec in H1; cbn in H1; rewrite orb_false_r in H1;
      rewrite H1 in H2; cbn in H2; by apply bool_decide_eq_true in H2
    end.
Qed.

Lemma findall_run_app (A B : char → bool) (cur p s : str) :
  Forall (λ c, A c = false ∧ B c = true) p →
  findall A B cur (p ++ s) = findall A B (cur ++ p) s.
Proof.
  revert cur. induction p as [|c p IH]; intros cur Hp; cbn [app].
  - by rewrite app_nil_r.
  - apply Forall_cons in Hp as [[HA HB] Hp]. cbn [findall]. rewrite HA, HB.
    destruct cur as [|c0 cur].
    + by rewrite IH.
    + rewrite IH by done. by rewrite <- app_assoc.
Qed.

Lemma findall_run_unit (A B : char → bool) (cur : str) (m : char) (s : str) :
  cur ≠ [] → A m = true → B m = false →
  findall A B cur (m :: s) = cur :: [m] :: findall A B [] s.
Proof. intros Hcur HA HB. cbn [findall]. destruct cur; [done|]. by rewrite HA, HB. Qed.

Lemma re_manshin_piece_unit (p : str) (m : char) (rest : str) :
  p ≠ [] → Forall (λ c, is_manshin c = false) p → is_manshin m = true →
  re_manshin (p ++ m :: rest) = p :: [m] :: re_manshin rest.
Proof.
  intros Hp Hno Hm. unfold re_manshin. rewrite findall_run_app.
  - apply findall_run_unit; [done..|]. by rewrite Hm.
  - eapply Forall_impl; [exact Hno|]. intros c Hc. cbn. by rewrite Hc.
Qed.

Lemma re_manshin_piece (p : str) :
  p ≠ [] → Forall (λ c, is_manshin c = false) p → re_manshin p = [p].
Proof.
  intros Hp Hno. unfold re_manshin. rewrite <- (app_nil_r p) at 1.
  rewrite findall_run_app.
  - cbn. by destruct p.
  - eapply Forall_impl; [exact Hno|]. intros c Hc. cbn. by rewrite Hc.
Qed.

Lemma TRANSMANS_piece (p : str) :
  Forall (λ c, is_manshin c = false) p → TRANSMANS p = None.
Proof.
  intros Hno. destruct (TRANSMANS p) as [v|] eqn:E; [|done].
  destruct p as [|c [|c' p]]; try done.
  apply TRANSMANS_Some in E as [Hc _]. apply Forall_inv in Hno.
  by rewrite Hc in Hno.
Qed.

Lemma piece_value_fuel (fuel : nat) (p : str) :
  piece_value dk (S fuel) p = piece_value dk 1 p.
Proof.
  unfold piece_value. destruct (isdecimal dk p); [done|].
  apply transvalue_kunit_fuel.
Qed.

Lemma transvalue_piece_unit (fuel : nat) (p : str) (m : char) (v : N)
    (rest : str) (r pv : N) :
  p ≠ [] → Forall (λ c, is_manshin c = false) p → TRANSMANS [m] = Some v →
  _transvalue dk (S (S fuel)) re_manshin TRANSMANS rest = Some r →
  piece_value dk 1 p = Some pv →
  _transvalue dk (S (S fuel)) re_manshin TRANSMANS (p ++ m :: rest)
  = Some (r + pv * v).
Proof.
  intros Hp Hno Hv Hrest Hpv. rewrite <- (piece_value_fuel fuel) in Hpv.
  destruct (TRANSMANS_Some m v Hv) as [Hm _].
  rewrite transvalue_unfold in Hrest |- *.
  rewrite re_manshin_piece_unit by done.
  rewrite !reverse_cons, !foldlM_app.
  destruct (foldlM _ _ (reverse (re_manshin rest))) as [[unit result]|];
    [|done].
  cbn in Hrest. injection Hrest as Hr.
  cbn [foldlM mbind option_bind]. unfold transvalue_step at 2.
  rewrite Hv. cbn [mbind option_bind]. rewrite Hr.
  unfold transvalue_step. rewrite (TRANSMANS_piece p Hno).
  unfold piece_value in Hpv. rewrite Hpv. done.
Qed.

Lemma transvalue_piece (fuel : nat) (p : str) (pv : N) :
  p ≠ [] → Forall (λ c, is_manshin c = false) p →
  piece_value dk 1 p = Some pv →
  _transvalue dk (S (S fuel)) re_manshin TRANSMANS p = Some pv.
Proof.
  intros Hp Hno Hpv. rewrite <- (piece_value_fuel fuel) in Hpv.
  rewrite transvalue_unfold, re_manshin_piece by done.
  cbn [reverse rev_append foldlM mbind option_bind]. unfold transvalue_step.
  rewrite (TRANSMANS_piece p Hno). unfold piece_value in Hpv. rewrite Hpv.
  cbn. by rewrite N.mul_1_r.
Qed.

Lemma translate_app (a b : str) :
  translate tt_ksuji (a ++ b) = translate tt_ksuji a ++ translate tt_ksuji b.
Proof. unfold translate. apply map_app. Qed.

Lemma translate_part (g : N) (m : char) :
  is_manshin m = true →
  translate tt_ksuji (kanji_part g m) = if g =? 0 then [] else tg g ++ [m].
Proof.
  intros Hm. unfold kanji_part. destruct (g =? 0); [done|].
  rewrite translate_app. f_equal. apply bool_decide_eq_true in Hm.
  repeat (apply elem_of_cons in Hm as [->|Hm]; [done|]).
  by apply elem_of_nil in Hm.
Qed.

Lemma part_value (fuel : nat) (g : N) (m : char) (v : N) (rest : str) (r : N) :
  g < 10 ^ 4 → TRANSMANS [m] = Some v →
  _transvalue dk (S (S fuel)) re_manshin TRANSMANS rest = Some r →
  _transvalue dk (S (S fuel)) re_manshin TRANSMANS
    (translate tt_ksuji (kanji_part g m) ++ rest)
  = Some (r + g * v).
Proof.
  intros Hg Hv Hrest. destruct (TRANSMANS_Some m v Hv) as [Hm _].
  rewrite translate_part by done. destruct (N.eqb_spec g 0) as [->|Hne].
  - cbn [app]. rewrite Hrest. f_equal. lia.
  - destruct (group_facts g) as (Hp & Hall & Hpv & _); [lia|].
    rewrite <- app_assoc. cbn [app].
    apply transvalue_piece_unit; [done| |done..].
    eapply Forall_impl; [exact Hall|]. by intros c [? _].
Qed.

Lemma group_value (fuel : nat) (g : N) :
  g < 10 ^ 4 →
  _transvalue dk (S (S fuel)) re_manshin TRANSMANS (tg g) = Some g.
Proof.
  intros Hg. destruct (N.eqb_spec g 0) as [->|Hne]; [done|].
  destruct (group_facts g) as (Hp & Hall & Hpv & _); [lia|].
  apply transvalue_piece; [done| |done].
  eapply Forall_impl; [exact Hall|]. by intros c [? _].
Qed.

Lemma translate_kanji_of (n : N) :
  translate tt_ksuji (kanji_of n)
  = translate tt_ksuji (kanji_part (n / 10 ^ 12) k_chou)
    ++ translate tt_ksuji (kanji_part (n / 10 ^ 8 mod 10 ^ 4) k_oku)
    ++ translate tt_ksuji (kanji_part (n / 10 ^ 4 mod 10 ^ 4) k_man)
    ++ tg (n mod 10 ^ 4).
Proof. unfold kanji_of. by rewrite !translate_app. Qed.

Lemma spelled_value (fuel : nat) (n : N) :
  n < 10 ^ 16 →
  _transvalue dk (S (S fuel)) re_manshin TRANSMANS
    (translate tt_ksuji (kanji_of n)) = Some n.
Proof.
  intros Hn. destruct (split_groups n Hn) as [H3 Hsum].
  assert (H2 : n / 10 ^ 8 mod 10 ^ 4 < 10 ^ 4) by (by apply N.mod_lt).
  assert (H1 : n / 10 ^ 4 mod 10 ^ 4 < 10 ^ 4) by (by apply N.mod_lt).
  assert (H0 : n mod 10 ^ 4 < 10 ^ 4) by (by apply N.mod_lt).
  rewrite translate_kanji_of.
  rewrite (part_value fuel _ k_chou 1000000000000 _
             (n mod 10 ^ 4 + (n / 10 ^ 4 mod 10 ^ 4) * 10000
              + (n / 10 ^ 8 mod 10 ^ 4) * 100000000)); [|done..|].
  - f_equal.
    change (10 ^ 12) with 1000000000000 in *.
    change (10 ^ 8) with 100000000 in *.
    change (10 ^ 4) with 10000 in *. lia.
  - rewrite (part_value fuel _ k_oku 100000000 _
               (n mod 10 ^ 4 + (n / 10 ^ 4 mod 10 ^ 4) * 10000)); [done..|].
    rewrite (part_value fuel _ k_man 10000 _ (n mod 10 ^ 4)); [done..|].
    by apply group_value.
Qed.

Lemma segment_all (P : char → bool) (cur s : str) :
  forallb P s = true → segment P cur s = emit_run (cur ++ s).
Proof.
  revert cur. induction s as [|c s IH]; intros cur; cbn [segment forallb].
  - by rewrite app_nil_r.
  - intros [Hc Hs]%andb_prop. rewrite Hc, IH by done. by rewrite <- app_assoc.
Qed.

Lemma unit_not_decimal (s : str) (c : char) :
  c ∈ s → dk c = None → isdecimal dk s = false.
Proof.
  intros Hc Hd. destruct (isdecimal dk s) eqn:E; [|done].
  apply isdecimal_forallb in E. rewrite forallb_forall in E.
  apply list_elem_of_In in Hc. apply E in Hc.
  unfold is_decimal_char in Hc. apply bool_decide_eq_true in Hc.
  rewrite Hd in Hc. by destruct Hc.
Qed.

Lemma part_shape (g : N) (m : char) :
  g < 10 ^ 4 → is_manshin m = true →
  Forall (λ c, is_suji dk c = true) (translate tt_ksuji (kanji_part g m))
  ∧ (g ≠ 0 → m ∈ translate tt_ksuji (kanji_part g m)).
Proof.
  intros Hg Hm. rewrite translate_part by done.
  destruct (N.eqb_spec g 0) as [->|Hne]; [by split|].
  destruct (group_facts g) as (_ & Hall & _); [lia|]. split.
  - apply Forall_app. split.
    + eapply Forall_impl; [exact Hall|]. by intros c [_ ?].
    + repeat constructor. unfold is_suji. by rewrite Hm, orb_true_r.
  - intros _. apply elem_of_app. right. left.
Qed.

Lemma spelled_shape (n : N) :
  0 < n < 10 ^ 16 →
  let s := translate tt_ksuji (kanji_of n) in
  s ≠ [] ∧ forallb (is_suji dk) s = true
  ∧ (isdecimal dk s = true → s = py_str n).
Proof.
  intros [Hpos Hn]. cbn zeta. destruct (split_groups n Hn) as [H3 Hsum].
  assert (H2 : n / 10 ^ 8 mod 10 ^ 4 < 10 ^ 4) by (by apply N.mod_lt).
  assert (H1 : n / 10 ^ 4 mod 10 ^ 4 < 10 ^ 4) by (by apply N.mod_lt).
  assert (H0 : n mod 10 ^ 4 < 10 ^ 4) by (by apply N.mod_lt).
  destruct (part_shape _ k_chou H3 eq_refl) as [Hs3 Hm3].
  destruct (part_shape _ k_oku H2 eq_refl) as [Hs2 Hm2].
  destruct (part_shape _ k_man H1 eq_refl) as [Hs1 Hm1].
  assert (Hs0 : Forall (λ c, is_suji dk c = true) (tg (n mod 10 ^ 4))).
  { destruct (N.eqb_spec (n mod 10 ^ 4) 0) as [->|Hne]; [constructor|].
    destruct (group_facts (n mod 10 ^ 4)) as (_ & Hall & _);
      [split; [by apply N.neq_0_lt_0|done]|].
    eapply Forall_impl; [exact Hall|]. by intros c [_ ?]. }
  rewrite translate_kanji_of.
  set (p3 := translate tt_ksuji (kanji_part (n / 10 ^ 12) k_chou)) in *.
  set (p2 := translate tt_ksuji (kanji_part (n / 10 ^ 8 mod 10 ^ 4) k_oku)) in *.
  set (p1 := translate tt_ksuji (kanji_part (n / 10 ^ 4 mod 10 ^ 4) k_man)) in *.
  set (g0 := n mod 10 ^ 4) in *.
  assert (Hall : forallb (is_suji dk) (p3 ++ p2 ++ p1 ++ tg g0) = true).
  { apply forallb_forall. intros c Hc%list_elem_of_In.
    apply elem_of_app in Hc as [Hc|Hc];
      [exact (proj1 (Forall_forall _ _) Hs3 c Hc)|].
    apply elem_of_app in Hc as [Hc|Hc];
      [exact (proj1 (Forall_forall _ _) Hs2 c Hc)|].
    apply elem_of_app in Hc as [Hc|Hc];
      [exact (proj1 (Forall_forall _ _) Hs1 c Hc)
      |exact (proj1 (Forall_forall _ _) Hs0 c Hc)]. }
  destruct (decide (n / 10 ^ 12 = 0 ∧ n / 10 ^ 8 mod 10 ^ 4 = 0
                    ∧ n / 10 ^ 4 mod 10 ^ 4 = 0)) as [(E3 & E2 & E1)|Hsome].
  - assert (Hp3 : p3 = []) by (unfold p3; by rewrite E3).
    assert (Hp2 : p2 = []) by (unfold p2; by rewrite E2).
    assert (Hp1 : p1 = []) by (unfold p1; by rewrite E1).
    assert (Hg0 : n = g0) by (rewrite Hsum at 1; rewrite E3, E2, E1; unfold g0; lia).
    rewrite Hp3, Hp2, Hp1 in Hall |- *. cbn [app] in Hall |- *.
    destruct (group_facts g0) as (Hne & _ & _ & Hdec); [lia|].
    split_and!; [done..|]. intros Hd. rewrite (Hdec Hd). by f_equal.
  - assert (Hunit : ∃ m, m ∈ p3 ++ p2 ++ p1 ++ tg g0 ∧ is_manshin m = true).
    { destruct (decide (n / 10 ^ 12 = 0)) as [E3|E3].
      - destruct (decide (n / 10 ^ 8 mod 10 ^ 4 = 0)) as [E2|E2].
        + exists k_man. split; [|done].
          do 2 (apply elem_of_app; right). apply elem_of_app; left.
          apply Hm1. naive_solver.
        + exists k_oku. split; [|done].
          apply elem_of_app; right. apply elem_of_app; left. by apply Hm2.
      - exists k_chou. split; [|done]. apply elem_of_app; left. by apply Hm3. }
    destruct Hunit as (m & Hin & Hm). split_and!.
    + intros Hnil. rewrite Hnil in Hin. by apply elem_of_nil in Hin.
    + done.
    + intros Hdec. rewrite (unit_not_decimal _ m Hin) in Hdec; [done|].
      unfold decimal_known.
      rewrite bool_decide_eq_false_2.
      * by rewrite Hm, orb_true_r.
      * intros Hd%ascii_digit_not_kansuji. unfold is_kansuji in Hd.
        by rewrite Hm, orb_true_r in Hd.
Qed.

End Spelled.

(** X11. A number from 1 to 9999999999999999 written in kanji numerals is
    converted to its decimal digits (handed to [zenhan.h2z]), and the
    evaluator gives its value: reading the spelling back is the number. *)
Theorem kansuji2arabic_spelled_number (decimal : char → option N)
    (h2z : str → str) (fuel : nat) (set_iter : list str → list str) (n : N) :
  decimal_ascii decimal → decimal_kanji decimal → set_iter_ok set_iter →
  0 < n < 10 ^ 16 →
  kansuji2arabic decimal h2z (S (S fuel)) set_iter (kanji_of n)
  = Some (h2z (py_str n))
  ∧ _transvalue decimal (S (S fuel)) re_manshin TRANSMANS
      (translate tt_ksuji (kanji_of n)) = Some n.
Proof.
  intros Hascii Hkanji Hiter Hn.
  assert (Hext : ∀ c, decimal c = decimal_known decimal c)
    by (intros c; by apply decimal_known_eq).
  split.
  - rewrite (kansuji2arabic_ext decimal (decimal_known decimal)) by done.
    rewrite kansuji2arabic_canonical by (done || apply decimal_known_ascii).
    destruct (spelled_shape decimal n Hn) as (Hne & Hall & Hdec).
    rewrite segment_all by done. cbn [app].
    destruct (translate tt_ksuji (kanji_of n)) as [|c s] eqn:Es; [done|].
    cbn [emit_run fmap list_fmap convert_all]. rewrite <- Es in *.
    destruct (isdecimal (decimal_known decimal) _) eqn:Ed.
    + cbn. rewrite app_nil_r. by rewrite Hdec.
    + cbn. rewrite app_nil_r. unfold run_value.
      by rewrite (spelled_value decimal 0 n) by apply Hn.
  - rewrite (transvalue_ext decimal (decimal_known decimal) Hext _ re_manshin re_manshin)
      by done.
    apply spelled_value, Hn.
Qed.

Lemma kansuji2arabic_spelled_number_witness :
  kansuji2arabic decimal_ja h2z_digit 2 remove_dups (u "二十三億五千万二十三")
  = Some (u "２３５０００００２３").
Proof.
  change (u "二十三億五千万二十三") with (kanji_of 2350000023).
  destruct (kansuji2arabic_spelled_number decimal_ja h2z_digit 0 remove_dups
              2350000023 decimal_ja_ascii decimal_ja_kanji
              set_iter_ok_remove_dups) as [-> _]; [done|].
  by vm_compute.
Defined.

(** ** The files *)

Lemma file_lines_concat (cur content : str) :
  concat (file_lines cur content) = cur ++ content.
Proof.
  revert cur. induction content as [|c rest IH]; intros cur; cbn [file_lines].
  - rewrite app_nil_r. destruct cur; cbn; by rewrite ?app_nil_r.
  - case_bool_decide; cbn [concat]; rewrite IH; by rewrite <- ?app_assoc.
Qed.

Lemma file_lines_line (cur l rest : str) :
  0x0A ∉ l →
  file_lines cur (l ++ 0x0A :: rest) = (cur ++ l ++ [0x0A]) :: file_lines [] rest.
Proof.
  revert cur. induction l as [|c l IH]; intros cur Hl; cbn [app file_lines].
  - by rewrite bool_decide_eq_true_2.
  - apply not_elem_of_cons in Hl as [Hc Hl].
    rewrite bool_decide_eq_false_2 by done. rewrite IH by done.
    by rewrite <- app_assoc.
Qed.

Lemma file_lines_shape (cur content : str) :
  0x0A ∉ cur → Forall is_line (file_lines cur content).
Proof.
  revert cur. induction content as [|c rest IH]; intros cur Hcur; cbn [file_lines].
  - destruct cur as [|c0 cur]; [constructor|]. repeat constructor.
    exists (c0 :: cur). split; [done|]. by right.
  - case_bool_decide as Hc.
    + constructor.
      * exists cur. split; [done|]. left. by rewrite Hc.
      * apply IH. apply not_elem_of_nil.
    + apply IH. rewrite elem_of_app, list_elem_of_singleton. naive_solver.
Qed.

Section Strip.

Variable isspace : char → bool.

Lemma lstrip_spec (s : str) :
  ∃ a, s = a ++ lstrip isspace s ∧ forallb isspace a = true.
Proof.
  induction s as [|c s (a & IH & Ha)]; [by exists []|]. cbn [lstrip].
  destruct (isspace c) eqn:Ec.
  - exists (c :: a). cbn. rewrite Ec, Ha. split; [by f_equal | done].
  - by exists [].
Qed.

Lemma lstrip_head (s : str) (c : char) :
  head (lstrip isspace s) = Some c → isspace c = false.
Proof.
  induction s as [|c0 s IH]; [done|]. cbn [lstrip].
  destruct (isspace c0) eqn:Ec; [done|]. by intros [= <-].
Qed.

Lemma strip_spec (s : str) :
  ∃ a b, s = a ++ strip isspace s ++ b
         ∧ forallb isspace a = true ∧ forallb isspace b = true.
Proof.
  unfold strip. destruct (lstrip_spec s) as (a & Hs & Ha).
  destruct (lstrip_spec (reverse (lstrip isspace s))) as (b & Hr & Hb).
  exists a, (reverse b). split_and!; [|done|].
  - rewrite Hs at 1. f_equal.
    rewrite <- reverse_app, <- Hr. by rewrite reverse_involutive.
  - apply forallb_forall. intros c Hc. rewrite forallb_forall in Hb.
    apply Hb. rewrite <- list_elem_of_In in Hc |- *.
    by rewrite elem_of_reverse in Hc.
Qed.

Lemma strip_head (s : str) (c : char) :
  head (strip isspace s) = Some c → isspace c = false.
Proof.
  unfold strip. rewrite head_reverse.
  destruct (lstrip_spec (reverse (lstrip isspace s))) as (b & Hr & _).
  intros Hlast. apply (lstrip_head s).
  rewrite <- last_reverse, Hr, last_app. by rewrite Hlast.
Qed.

Lemma strip_last (s : str) (c : char) :
  last (strip isspace s) = Some c → isspace c = false.
Proof. unfold strip. rewrite last_reverse. apply lstrip_head. Qed.

Lemma strip_line (l : str) :
  isspace 0x0A = true → is_line l → 0x0A ∉ strip isspace l.
Proof.
  intros Hnl (body & Hbody & Hl) Hin.
  destruct (strip_spec l) as (a & b & Hs & _ & _).
  pose proof (strip_last l) as Hlast.
  apply list_elem_of_split in Hin as (w1 & w2 & Hw). rewrite Hw in Hs, Hlast.
  destruct Hl as [->| [-> _]].
  - destruct (w2 ++ b) as [|x k _] eqn:E using rev_ind.
    + apply app_eq_nil in E as [-> _].
      specialize (Hlast 0x0A). rewrite last_snoc in Hlast.
      by rewrite Hlast in Hnl.
    + rewrite <- !app_assoc in Hs. cbn [app] in Hs. rewrite E in Hs.
      change (body ++ [0x0A] = a ++ w1 ++ 0x0A :: (k ++ [x])) in Hs.
      replace (a ++ w1 ++ 0x0A :: k ++ [x])
        with ((a ++ w1 ++ 0x0A :: k) ++ [x]) in Hs
        by (by rewrite <- !app_assoc).
      apply app_inj_tail in Hs as [Hs _]. apply Hbody. rewrite Hs.
      rewrite !elem_of_app. right; right. left.
  - apply Hbody. rewrite Hs. apply elem_of_app; right.
    apply elem_of_app; left. apply elem_of_app; right. left.
Qed.

End Strip.

(** X12. [load_file] gives one word per line of the file, in order: the
    line without the whitespace at its two ends. A word never holds a
    newline, and neither starts nor ends with whitespace; the lines put
    together are the file. *)
Theorem load_file_words (isspace : char → bool) (content : str) :
  isspace 0x0A = true →
  Forall2 (λ line w, ∃ a b, line = a ++ w ++ b ∧ forallb isspace a = true
                            ∧ forallb isspace b = true)
          (file_lines [] content) (load_file isspace content)
  ∧ Forall (λ w, (0x0A ∉ w) ∧ (∀ c, head w = Some c → isspace c = false)
                 ∧ (∀ c, last w = Some c → isspace c = false))
           (load_file isspace content)
  ∧ concat (file_lines [] content) = content
  ∧ length (load_file isspace content) = count_line content.
Proof.
  intros Hnl. unfold load_file, count_line. split_and!.
  - apply Forall2_fmap_r, Forall_Forall2_diag, Forall_forall.
    intros l _. apply strip_spec.
  - apply Forall_fmap, Forall_forall. intros l Hl. cbn. split_and!.
    + apply strip_line; [done|].
      pose proof (file_lines_shape [] content (not_elem_of_nil _)) as Hall.
      rewrite Forall_forall in Hall. by apply Hall.
    + apply strip_head.
    + apply strip_last.
  - apply file_lines_concat.
  - apply length_fmap.
Qed.

Lemma load_file_words_witness :
  isspace_ascii 0x0A = true
  ∧ length (load_file isspace_ascii sample_file) = count_line sample_file.
Proof.
  split; [reflexivity|].
  apply (load_file_words isspace_ascii sample_file eq_refl).
Defined.

Lemma format_line_body (p : str * nat) :
  0x0A ∉ p.1 → 0x0A ∉ p.1 ++ [0x09] ++ py_str (N.of_nat p.2).
Proof.
  intros Hw. rewrite !elem_of_app, list_elem_of_singleton.
  intros [?|[?|Hd]]; [done..|].
  pose proof (py_str_ascii (N.of_nat p.2)) as Hall.
  rewrite Forall_forall in Hall. apply Hall in Hd. unfold ascii_digit in Hd. lia.
Qed.

Lemma file_lines_save (out : list (str * nat)) (rest : str) :
  Forall (λ p, 0x0A ∉ p.1) out →
  file_lines [] (save out ++ rest) = (format_line <$> out) ++ file_lines [] rest.
Proof.
  induction 1 as [|p out Hp _ IH]; [done|].
  change (save (p :: out)) with (format_line p ++ save out).
  replace ((format_line p ++ save out) ++ rest)
    with ((p.1 ++ [0x09] ++ py_str (N.of_nat p.2)) ++ 0x0A :: (save out ++ rest))
    by (unfold format_line; cbn; rewrite <- ?app_assoc; cbn; rewrite <- ?app_assoc; done).
  rewrite file_lines_line by (by apply format_line_body). rewrite IH.
  cbn. f_equal. unfold format_line. cbn. by rewrite <- ?app_assoc.
Qed.

(** X13. When no word holds a newline, the file [save] writes has exactly
    one line per pair, in order, each the word, a tab, the id in decimal
    digits and a newline. *)
Theorem save_one_line_per_pair (out : list (str * nat)) :
  Forall (λ p, 0x0A ∉ p.1) out →
  file_lines [] (save out) = format_line <$> out
  ∧ count_line (save out) = length out.
Proof.
  intros Hout. pose proof (file_lines_save out [] Hout) as Hlines.
  rewrite !app_nil_r in Hlines. split; [done|].
  unfold count_line. by rewrite Hlines, length_fmap.
Qed.

Lemma save_one_line_per_pair_witness :
  count_line (save [(u "犬", 0%nat); (u "猫", 12%nat)]) = 2%nat.
Proof.
  apply (save_one_line_per_pair [(u "犬", 0%nat); (u "猫", 12%nat)]).
  repeat constructor; apply (bool_decide_unpack _); by vm_compute.
Defined.

(** ** Depth of the recursion, and the whole program *)

Section Whole.

Variable decimal : char → option N.
Variable h2z : str → str.
Variable set_iter : list str → list str.
Variable analysis : str → list mrph.










End Whole.





Section Program.

Variable decimal : char → option N.
Variable h2z : str → str.
Variable set_iter : list str → list str.
Variable analysis : str → list mrph.
Variable isspace : char → bool.

(** The candidate tuple [main] computes for a word. *)
Local Abbreviation word_repnames fuel :=
  (λ word : str,
     default [] (expand_ambiguity
                   <$> mapM (mrph_candidates decimal h2z set_iter fuel)
                            (analysis (h2z word)))).




End Program.



Section Succeeds.

Variable decimal : char → option N.
Variable h2z : str → str.
Variable set_iter : list str → list str.
Variable analysis : str → list mrph.
Hypothesis decimal_ok : decimal_ascii decimal.
Hypothesis set_iter_good : set_iter_ok set_iter.
Hypothesis h2z_nonempty : ∀ s, s ≠ [] → h2z s ≠ [].
Hypothesis numerals_nonempty :
  ∀ word m, m ∈ analysis word → bunrui m = SUUSHI → midasi m ≠ [].




End Succeeds.


